(** * TranscriptParser: a shallow embedding of [src/transcript.py]

    The development follows the two classes of the module:
    [TranscriptLine] (one timed, attributed utterance) and [Transcript]
    (an ordered list of lines together with the aggregates that
    [__add_item] keeps up to date).

    Modelling conventions.
    - A [datetime.timedelta] is its exact number of microseconds, an
      integer ([Z]); the library's range check (|days| <= 999999999) is
      not modelled.
    - A Python [str] is a list of characters; a character is a code point
      below 256 ([ascii]).
    - A Python exception is a constructor of [exn]; a method that can raise
      returns a [result].
    - A [set] is a [gset], a [dict] is a [gmap]. *)

From Stdlib Require Import ZArith Ascii String List Lia Permutation Sorted.
From stdpp Require Import base option list gmap sets strings.

Open Scope Z_scope.

(** ** Exceptions *)

Inductive exn : Type :=
| ValueError
| IndexError
| ZeroDivisionError.

Inductive result (A : Type) : Type :=
| Ok (a : A)
| Raise (e : exn).

Arguments Ok {A} a.
Arguments Raise {A} e.

Definition bind {A B : Type} (c : result A) (k : A -> result B) : result B :=
  match c with
  | Ok a => k a
  | Raise e => Raise e
  end.

Notation "x <- c ;; k" := (bind c (fun x => k))
  (at level 100, c at next level, right associativity).

(** ** Strings and durations *)

Abbreviation str := (list ascii).
Abbreviation timedelta := Z.

(** A string literal. *)
Definition lit (s : string) : str := list_ascii_of_string s.

(** [timedelta()] *)
Definition timedelta0 : timedelta := 0.

(** Microseconds in a millisecond, a second, a day. *)
Definition us_per_ms : Z := 1000.
Definition us_per_s : Z := 1000000.
Definition us_per_day : Z := 86400 * us_per_s.

(** ** TranscriptLine *)

Record TranscriptLine : Type := mkLine {
  start_time : timedelta;
  end_time : timedelta;
  speaker : str;
  text : str
}.

(** [TranscriptLine.create] *)
Definition create (start_time end_time : timedelta) (speaker text : str) : TranscriptLine :=
  mkLine start_time end_time speaker text.

Definition get_start_time (l : TranscriptLine) : timedelta := start_time l.
Definition get_end_time (l : TranscriptLine) : timedelta := end_time l.
Definition get_speaker (l : TranscriptLine) : str := speaker l.
Definition get_text (l : TranscriptLine) : str := text l.

(** [TranscriptLine.get_duration] *)
Definition get_duration (l : TranscriptLine) : timedelta := end_time l - start_time l.

(** [TranscriptLine.__sub__]: the gap from the end of [other] to the start
    of [self]. *)
Definition line_sub (self other : TranscriptLine) : timedelta :=
  get_start_time self - get_end_time other.

(** [TranscriptLine.__eq__] *)
Definition line_eq (a b : TranscriptLine) : bool :=
  (get_start_time a =? get_start_time b)
  && (get_end_time a =? get_end_time b)
  && bool_decide (get_speaker a = get_speaker b)
  && bool_decide (get_text a = get_text b).

(** ** Transcript *)

Record Transcript : Type := mkTranscript {
  lines : list TranscriptLine;
  speakers : gset str;
  silence_intervals : list timedelta;
  total_speaking_time : timedelta;
  total_silence : timedelta
}.

(** [Transcript.__init__] *)
Definition Transcript_init : Transcript :=
  mkTranscript [] ∅ [] timedelta0 timedelta0.

(** [Transcript.__add_item]. [last] is [self.__lines[-1]], guarded by the
    truth value of the list. *)
Definition add_item (self : Transcript) (item : TranscriptLine) : Transcript :=
  let self1 :=
    match last (lines self) with
    | Some prev =>
        let silence := line_sub item prev in
        mkTranscript (lines self) (speakers self)
          (silence_intervals self ++ [silence])
          (total_speaking_time self)
          (total_silence self + silence)
    | None => self
    end in
  mkTranscript (lines self1 ++ [item])
    ({[ get_speaker item ]} ∪ speakers self1)
    (silence_intervals self1)
    (total_speaking_time self1 + get_duration item)
    (total_silence self1).

(** The transcript obtained by appending the lines of [ls], in order, to a
    fresh transcript: every constructing operation below has this shape. *)
Definition build (ls : list TranscriptLine) : Transcript :=
  foldl add_item Transcript_init ls.

(** [Transcript.num_lines] *)
Definition num_lines (self : Transcript) : nat := length (lines self).

(** [Transcript.get_lines] *)
Definition get_lines (self : Transcript) : list TranscriptLine := lines self.

(** [Transcript.__eq__] against another transcript: same number of lines
    and equal lines at every index below it. *)
Definition transcript_eq (self other : Transcript) : bool :=
  (num_lines self =? num_lines other)%nat
  && forallb (fun i =>
       match get_lines self !! i, get_lines other !! i with
       | Some a, Some b => line_eq a b
       | _, _ => false
       end) (seq 0 (num_lines self)).

(** [Transcript.map_speakers] *)
Definition map_speakers (self : Transcript) (speaker_map : gmap str str) : Transcript :=
  foldl (fun mapped line =>
           match speaker_map !! get_speaker line with
           | Some new_name =>
               add_item mapped
                 (create (get_start_time line) (get_end_time line) new_name (get_text line))
           | None => add_item mapped line
           end)
        Transcript_init (lines self).

(** [i % n] on non-negative machine-independent integers. *)
Definition py_mod (i n : nat) : result nat :=
  match n with
  | O => Raise ZeroDivisionError
  | S _ => Ok (i mod n)%nat
  end.

(** [l[i]] for a non-negative index. *)
Definition py_index {A : Type} (l : list A) (i : nat) : result A :=
  match l !! i with
  | Some x => Ok x
  | None => Raise IndexError
  end.

(** The loop of [Transcript.alternate_speakers], from index [i] on. *)
Fixpoint alternate_loop (speaker_names : list str) (alternated : Transcript)
    (i : nat) (rest : list TranscriptLine) : result Transcript :=
  match rest with
  | [] => Ok alternated
  | line :: rest' =>
      k <- py_mod i (length speaker_names) ;;
      name <- py_index speaker_names k ;;
      alternate_loop speaker_names
        (add_item alternated
           (create (get_start_time line) (get_end_time line) name (get_text line)))
        (S i) rest'
  end.

(** [Transcript.alternate_speakers] *)
Definition alternate_speakers (self : Transcript) (speaker_names : list str) : result Transcript :=
  alternate_loop speaker_names Transcript_init 0 (lines self).

(** A merge predicate is a Python callable: it may raise. *)
Definition predicate : Type := TranscriptLine -> TranscriptLine -> result bool.

(** The line built in the [if] branch of [merge]. *)
Definition merged_line (next_merged_line curr_line : TranscriptLine) : TranscriptLine :=
  create (get_start_time next_merged_line)
         (get_end_time curr_line)
         (get_speaker next_merged_line)
         (get_text next_merged_line ++ lit " " ++ get_text curr_line).

(** The [for] loop of [Transcript.merge]: the state is the transcript
    under construction and the accumulator [next_merged_line]. *)
Fixpoint merge_loop (merge_predicate : predicate) (merged : Transcript)
    (next_merged_line : TranscriptLine) (rest : list TranscriptLine)
    : result (Transcript * TranscriptLine) :=
  match rest with
  | [] => Ok (merged, next_merged_line)
  | curr_line :: rest' =>
      b <- merge_predicate next_merged_line curr_line ;;
      if b : bool
      then merge_loop merge_predicate merged (merged_line next_merged_line curr_line) rest'
      else merge_loop merge_predicate (add_item merged next_merged_line) curr_line rest'
  end.

(** [Transcript.merge] *)
Definition merge (self : Transcript) (merge_predicate : predicate) : result Transcript :=
  match lines self with
  | [] => Raise IndexError
  | first :: rest =>
      st <- merge_loop merge_predicate Transcript_init first rest ;;
      let (merged, next_merged_line) := st : Transcript * TranscriptLine in
      Ok (add_item merged next_merged_line)
  end.

(** [Transcript.__same_speaker] *)
Definition same_speaker : predicate :=
  fun line1 line2 => Ok (bool_decide (get_speaker line1 = get_speaker line2)).

(** [Transcript.__longer_silence] *)
Definition longer_silence (line1 line2 : TranscriptLine) (interval : timedelta) : result bool :=
  Ok (interval <=? line_sub line2 line1).

(** ** Sorting

    [sorted] is stable: among elements with equal keys the original
    order is kept. Insertion from the right realises exactly that. *)

Fixpoint insert_by {A : Type} (key : A -> Z) (x : A) (l : list A) : list A :=
  match l with
  | [] => [x]
  | y :: l' => if key x <=? key y then x :: l else y :: insert_by key x l'
  end.

Definition sorted {A : Type} (key : A -> Z) (l : list A) : list A :=
  foldr (insert_by key) [] l.

(** ** Statistics *)

(** [Transcript.get_silence_intervals] *)
Definition get_silence_intervals (self : Transcript) (sort : bool) : list timedelta :=
  if sort then sorted id (silence_intervals self) else silence_intervals self.

(** [Transcript.median_silence] *)
Definition median_silence (self : Transcript) : result timedelta :=
  let silence_intervals := get_silence_intervals self true in
  py_index silence_intervals (length silence_intervals / 2)%nat.

(** [Transcript.median_speaking_time] *)
Definition median_speaking_time (self : Transcript) : result timedelta :=
  l <- py_index (sorted get_duration (lines self)) (length (lines self) / 2)%nat ;;
  Ok (get_duration l).

(** [Transcript.std_speaking_time] *)
Definition std_speaking_time (self : Transcript) : timedelta := timedelta0.

(** [Transcript.total_time] *)
Definition total_time (self : Transcript) : result timedelta :=
  match last (lines self) with
  | Some l => Ok (get_end_time l)
  | None => Raise IndexError
  end.

(** ** merge_by_silence_interval *)

(** Truth value of a function object: a function defines neither
    [__bool__] nor [__len__], so it is always true. *)
Definition callable_truth (p : predicate) : bool := true.

(** [x and y] on objects: [x] when [x] is false, otherwise [y]. *)
Definition py_and {A : Type} (truth : A -> bool) (x y : A) : A :=
  if truth x then y else x.

(** [Transcript.merge_by_silence_interval]; [None] is the default value of
    [interval]. *)
Definition merge_by_silence_interval (self : Transcript) (interval : option timedelta)
    (ignore_speakers : bool) : result Transcript :=
  interval <- match interval with
              | None => median_silence self
              | Some i => Ok i
              end ;;
  let pred : predicate := fun line1 line2 => longer_silence line1 line2 interval in
  let pred := if negb ignore_speakers then py_and callable_truth pred same_speaker else pred in
  merge self pred.

(** ** Text processing *)

Definition nl : ascii := "010"%char.

Definition is_nl (c : ascii) : bool := bool_decide (c = nl).

(** [str.isspace] on one character: tab to carriage return, the four
    separators 28..31, space, NEL and the no-break space. *)
Definition isspace (c : ascii) : bool :=
  let n := nat_of_ascii c in
  ((9 <=? n) && (n <=? 13) || (28 <=? n) && (n <=? 32) || (n =? 133) || (n =? 160))%nat.

Fixpoint lstrip (s : str) : str :=
  match s with
  | [] => []
  | c :: s' => if isspace c then lstrip s' else s
  end.

Definition rstrip (s : str) : str := rev (lstrip (rev s)).

(** [str.strip()] *)
Definition strip (s : str) : str := rstrip (lstrip s).

Definition cons_head (c : ascii) (l : list str) : list str :=
  match l with
  | [] => [[c]]
  | h :: t => (c :: h) :: t
  end.

(** [s.split('\n\n')]: occurrences of the separator are found left to
    right and do not overlap; the result is never empty. *)
Fixpoint split_blank (s : str) : list str :=
  match s with
  | [] => [[]]
  | c :: s' =>
      match s' with
      | d :: s'' =>
          if is_nl c && is_nl d then [] :: split_blank s''
          else cons_head c (split_blank s')
      | [] => [[c]]
      end
  end.

(** [sep.join(l)] *)
Fixpoint join (sep : str) (l : list str) : str :=
  match l with
  | [] => []
  | x :: l' =>
      match l' with
      | [] => x
      | _ :: _ => x ++ sep ++ join sep l'
      end
  end.

Definition is_digit (c : ascii) : bool :=
  let n := nat_of_ascii c in ((48 <=? n) && (n <=? 57))%nat.

(** The class [[1-9]]. *)
Definition is_digit19 (c : ascii) : bool :=
  let n := nat_of_ascii c in ((49 <=? n) && (n <=? 57))%nat.

Definition digit_val (c : ascii) : Z := Z.of_nat (nat_of_ascii c) - 48.

Definition digit_char (d : Z) : ascii := ascii_of_nat (Z.to_nat (d + 48)).

(** *** The pattern of [TranscriptLine.parse_line]

    The pattern is matched with [re.fullmatch]. Its fixed-width parts are
    sequences of character classes; the line number is a greedy run of
    digits stopped by the newline; the last line is split by two greedy
    [.+] around [": "]. *)

Inductive char_class : Type :=
| Digit
| Char (c : ascii).

Definition in_class (k : char_class) (c : ascii) : bool :=
  match k with
  | Digit => is_digit c
  | Char c' => bool_decide (c = c')
  end.

(** Match a sequence of classes at the start of [s]: the matched text and
    the rest. *)
Fixpoint match_classes (p : list char_class) (s : str) : option (str * str) :=
  match p with
  | [] => Some ([], s)
  | k :: p' =>
      match s with
      | [] => None
      | c :: s' =>
          if in_class k c
          then match match_classes p' s' with
               | Some (m, rest) => Some (c :: m, rest)
               | None => None
               end
          else None
      end
  end.

(** [[0-9]{2}:[0-9]{2}:[0-9]{2}\.[0-9]{3}] *)
Definition timestamp_pattern : list char_class :=
  [Digit; Digit; Char ":"; Digit; Digit; Char ":"; Digit; Digit; Char "."; Digit; Digit; Digit].

(** [ --> ] *)
Definition arrow_pattern : list char_class :=
  [Char " "; Char "-"; Char "-"; Char ">"; Char " "].

Fixpoint skip_digits (s : str) : str :=
  match s with
  | [] => []
  | c :: s' => if is_digit c then skip_digits s' else s
  end.

(** The group [line_num] (a digit from 1 to 9, then any number of
    digits) and the newline after it: the rest after the newline. *)
Definition match_line_num (s : str) : option str :=
  match s with
  | [] => None
  | c :: s' =>
      if is_digit19 c
      then match skip_digits s' with
           | d :: rest => if is_nl d then Some rest else None
           | [] => None
           end
      else None
  end.

(** [(?P<speaker>.+): (?P<text>.+)] on a string without newline: both
    groups are greedy, so the speaker is the longest prefix that leaves
    [": "] and a non-empty text behind it. *)
Fixpoint greedy_split (r : str) : option (str * str) :=
  match r with
  | [] => None
  | c :: r' =>
      match greedy_split r' with
      | Some (s, t) => Some (c :: s, t)
      | None =>
          match r' with
          | c1 :: c2 :: d :: t =>
              if bool_decide (c1 = ":"%char) && bool_decide (c2 = " "%char)
              then Some ([c], d :: t)
              else None
          | _ => None
          end
      end
  end.

(** The second and third lines of the pattern: the two timestamps around
    the arrow, the newline, and the speaker and text, which hold no
    newline ([.] matches none, and a full match leaves none behind). *)
Definition match_body (rest : str) : option (str * str * str * str) :=
  match match_classes timestamp_pattern rest with
  | None => None
  | Some (start, rest) =>
  match match_classes arrow_pattern rest with
  | None => None
  | Some (_, rest) =>
  match match_classes timestamp_pattern rest with
  | None => None
  | Some (stop, rest) =>
  match match_classes [Char nl] rest with
  | None => None
  | Some (_, rest) =>
      if existsb is_nl rest then None
      else match greedy_split rest with
           | Some (speaker, text) => Some (start, stop, speaker, text)
           | None => None
           end
  end end end end.

(** The groups [start_time], [end_time], [speaker], [text] of a full match
    of the line pattern. *)
Definition match_line (line : str) : option (str * str * str * str) :=
  match match_line_num line with
  | None => None
  | Some rest => match_body rest
  end.

(** [TranscriptLine.__parse_time], on a match of the timestamp pattern
    (its only use). [strptime] with ["%H:%M:%S.%f"] accepts hours up to
    23 and minutes up to 59; seconds 60 and 61 pass its pattern but are
    refused by the [datetime] constructor, with the same [ValueError]. *)
Definition parse_time (time : str) : result timedelta :=
  match time with
  | [h1; h2; _; m1; m2; _; s1; s2; _; f1; f2; f3] =>
      let hour := 10 * digit_val h1 + digit_val h2 in
      let minute := 10 * digit_val m1 + digit_val m2 in
      let second := 10 * digit_val s1 + digit_val s2 in
      let microsecond := (100 * digit_val f1 + 10 * digit_val f2 + digit_val f3) * us_per_ms in
      if (hour <=? 23) && (minute <=? 59) && (second <=? 59)
      then Ok (((hour * 60 + minute) * 60 + second) * us_per_s + microsecond)
      else Raise ValueError
  | _ => Raise ValueError
  end.

(** [TranscriptLine.parse_line] *)
Definition parse_line (line : str) : result TranscriptLine :=
  match match_line line with
  | None => Raise ValueError
  | Some (start, stop, speaker, text) =>
      start_time <- parse_time start ;;
      end_time <- parse_time stop ;;
      Ok (mkLine start_time end_time speaker text)
  end.

(** The loop of [Transcript.parse_transcript]. *)
Fixpoint parse_loop (obj : Transcript) (blocks : list str) : result Transcript :=
  match blocks with
  | [] => Ok obj
  | line :: blocks' =>
      item <- parse_line line ;;
      parse_loop (add_item obj item) blocks'
  end.

(** [Transcript.parse_transcript], from the contents of the file. *)
Definition parse_transcript (contents : str) : result Transcript :=
  let blocks := split_blank (strip contents) in
  match blocks with
  | [] => Raise IndexError
  | first :: rest =>
      let blocks := if bool_decide (first = lit "WEBVTT") then rest else blocks in
      parse_loop Transcript_init blocks
  end.

(** *** Rendering *)

Definition two_digits (n : Z) : str := [digit_char (n / 10); digit_char (n mod 10)].

Definition three_digits (n : Z) : str :=
  [digit_char (n / 100); digit_char (n / 10 mod 10); digit_char (n mod 10)].

(** [str(n)] for a non-negative integer. *)
Fixpoint digits_fuel (fuel : nat) (n : Z) : str :=
  match fuel with
  | O => []
  | S fuel' =>
      if n <? 10 then [digit_char n]
      else digits_fuel fuel' (n / 10) ++ [digit_char (n mod 10)]
  end.

Definition str_of_int (n : Z) : str := digits_fuel (S (Z.to_nat n)) n.

Section Rendering.

(** [format(float(s), '06.3f')] goes through a binary float. Its
    rounding is a parameter: [round_ms u] is the number of milliseconds
    printed for [u] microseconds, [0 <= u < 60000000]. *)
Variable round_ms : Z -> Z.

(** One time of [TranscriptLine.__str__]. [str(timedelta)] is
    ["H:MM:SS"] followed by [".ffffff"] when the microseconds are not
    zero, and starts with ["D day(s), "] when the days are not zero:
    then [int] raises on the first field. *)
Definition format_time (t : timedelta) : result str :=
  if (0 <=? t) && (t <? us_per_day)
  then
    let seconds := t / us_per_s in
    let microseconds := t mod us_per_s in
    let mm := seconds / 60 in
    let ss := seconds mod 60 in
    let hh := mm / 60 in
    let mm := mm mod 60 in
    let ms := round_ms (ss * us_per_s + microseconds) in
    Ok (two_digits hh ++ lit ":" ++ two_digits mm ++ lit ":"
          ++ two_digits (ms / 1000) ++ lit "." ++ three_digits (ms mod 1000))
  else Raise ValueError.

(** [TranscriptLine.__str__] *)
Definition line_str (l : TranscriptLine) : result str :=
  rounded_start <- format_time (start_time l) ;;
  rounded_end <- format_time (end_time l) ;;
  Ok (rounded_start ++ lit " --> " ++ rounded_end ++ [nl]
        ++ speaker l ++ lit ": " ++ text l).

(** The blocks of [Transcript.__str__], from index [i] on. *)
Fixpoint str_blocks (i : nat) (ls : list TranscriptLine) : result (list str) :=
  match ls with
  | [] => Ok []
  | l :: ls' =>
      s <- line_str l ;;
      blocks <- str_blocks (S i) ls' ;;
      Ok ((str_of_int (Z.of_nat i + 1) ++ [nl] ++ s) :: blocks)
  end.

(** [Transcript.__str__] *)
Definition transcript_str (self : Transcript) : result str :=
  blocks <- str_blocks 0 (lines self) ;;
  Ok (join [nl; nl] blocks).

End Rendering.

(** Rounding to the nearest millisecond, halves up: one function that is
    exact on whole milliseconds. *)
Definition round_half_up (u : Z) : Z := (u + 500) / 1000.

(** ** Specification-side definitions *)

Definition sum_Z (l : list Z) : Z := foldr Z.add 0 l.

(** The invariant of the data model: the aggregates agree with the lines. *)
Record Transcript_inv (T : Transcript) : Prop := mkInv {
  inv_intervals :
    Z.of_nat (length (silence_intervals T)) = Z.max 0 (Z.of_nat (length (lines T)) - 1);
  inv_total_silence : total_silence T = sum_Z (silence_intervals T);
  inv_total_speaking : total_speaking_time T = sum_Z (map get_duration (lines T));
  inv_speakers : speakers T = list_to_set (map get_speaker (lines T))
}.

(** Ascending order of the keys, between every two positions. *)
Definition key_le {A : Type} (key : A -> Z) (a b : A) : Prop := key a <= key b.

Definition ascending {A : Type} (key : A -> Z) (s : list A) : Prop :=
  StronglySorted (key_le key) s.

(** [s] keeps the elements of [l] that share a key in their order in [l]. *)
Definition stable_wrt {A : Type} (key : A -> Z) (s l : list A) : Prop :=
  forall k : Z, filter (fun x => key x = k) s = filter (fun x => key x = k) l.

(** The line [map_speakers] appends for [line]. *)
Definition remap (speaker_map : gmap str str) (line : TranscriptLine) : TranscriptLine :=
  match speaker_map !! get_speaker line with
  | Some new_name => create (get_start_time line) (get_end_time line) new_name (get_text line)
  | None => line
  end.

(** A transcript a constructing operation returned. *)
Inductive constructed : Transcript -> Prop :=
| constructed_parse (contents : str) (T : Transcript) :
    parse_transcript contents = Ok T -> constructed T
| constructed_map_speakers (T : Transcript) (speaker_map : gmap str str) :
    constructed (map_speakers T speaker_map)
| constructed_alternate_speakers (T T' : Transcript) (speaker_names : list str) :
    alternate_speakers T speaker_names = Ok T' -> constructed T'
| constructed_merge (T T' : Transcript) (p : predicate) :
    merge T p = Ok T' -> constructed T'.

(** The predicate the specification words for [ignore_speakers=False]:
    the silence condition and the speaker condition, both on the pair. *)
Definition spec_silence_and_same_speaker (interval : timedelta) : predicate :=
  fun line1 line2 =>
    a <- longer_silence line1 line2 interval ;;
    b <- same_speaker line1 line2 ;;
    Ok (a && b).

(** The lower of the two middle indices of [n] sorted elements, and the
    medians the specification words with it. *)
Definition spec_lower_middle (n : nat) : nat := ((n - 1) / 2)%nat.

Definition spec_median_speaking_time (self : Transcript) : result timedelta :=
  l <- py_index (sorted get_duration (lines self)) (spec_lower_middle (length (lines self))) ;;
  Ok (get_duration l).

Definition spec_median_silence (self : Transcript) : result timedelta :=
  let silence_intervals := get_silence_intervals self true in
  py_index silence_intervals (spec_lower_middle (length silence_intervals)).

(** The split the specification words: at the first [": "]. *)
Fixpoint spec_split_first (r : str) : option (str * str) :=
  match r with
  | [] => None
  | c :: r' =>
      match r with
      | ":"%char :: " "%char :: t => Some ([], t)
      | _ => match spec_split_first r' with
             | Some (s, t) => Some (c :: s, t)
             | None => None
             end
      end
  end.

(** A block that [split] leaves whole between two separators: it is not
    empty, holds no two newlines in a row and does not end with one. *)
Fixpoint block_ok (b : str) : bool :=
  match b with
  | [] => false
  | c :: b' =>
      match b' with
      | [] => negb (is_nl c)
      | d :: _ => negb (is_nl c && is_nl d) && block_ok b'
      end
  end.

(** A block as [Transcript.__str__] writes it for the line [l]. *)
Definition rendered (b : str) (l : TranscriptLine) : Prop :=
  parse_line b = Ok l /\
  block_ok b = true /\
  last b = last (text l) /\
  exists c r, b = c :: r /\ is_digit19 c = true.

(** The rounding of the float formatting is exact on whole milliseconds. *)
Definition exact_on_ms (round_ms : Z -> Z) : Prop :=
  forall k : Z, 0 <= k < 60000 -> round_ms (k * 1000) = k.

(** *** Sample transcripts *)

Definition ex_block : str :=
  lit "1" ++ [nl] ++ lit "00:00:00.000 --> 00:00:01.000" ++ [nl] ++ lit "A: b: c".

Definition ex_contents : str :=
  lit "WEBVTT" ++ [nl; nl]
    ++ lit "7" ++ [nl] ++ lit "00:00:00.000 --> 00:00:02.000" ++ [nl] ++ lit "A: hello" ++ [nl; nl]
    ++ lit "8" ++ [nl] ++ lit "00:00:02.500 --> 00:00:04.000" ++ [nl] ++ lit "A: world" ++ [nl].


Definition ex_hello : TranscriptLine := mkLine 0 2000000 (lit "A") (lit "hello").
Definition ex_world : TranscriptLine := mkLine 2500000 4000000 (lit "A") (lit "world").
Definition ex_bye : TranscriptLine := mkLine 5000000 6000000 (lit "B") (lit "bye").

Definition ex_two_lines : Transcript := build [ex_hello; ex_world].
Definition ex_three_lines : Transcript := build [ex_hello; ex_world; ex_bye].

(** A predicate that returns on every pair of lines. *)
Definition total_predicate (p : predicate) : Prop :=
  forall a b, exists v, p a b = Ok v.

(** ** Further operations of the module *)

(** [TranscriptLine.__add__] *)
Definition line_add (self other : TranscriptLine) : TranscriptLine :=
  mkLine (start_time self) (end_time other) (speaker self)
         (text self ++ lit " " ++ text other).

(** [Transcript.consolidate] *)
Definition consolidate (self : Transcript) : str :=
  join [nl; nl]
    (map (fun line => get_speaker line ++ lit ": " ++ get_text line) (lines self)).

(** [str.lower] on one character: the capital letters of ASCII and of
    Latin-1 (192 to 222, the multiplication sign 215 apart) are 32 below
    their small letters. *)
Definition lower_char (c : ascii) : ascii :=
  let n := nat_of_ascii c in
  if ((65 <=? n) && (n <=? 90) || (192 <=? n) && (n <=? 222) && negb (n =? 215))%nat
  then ascii_of_nat (n + 32)
  else c.

Definition lower (s : str) : str := map lower_char s.

(** [Transcript.merge_by_speaker]. [answer] is what [input] returns; it
    is asked for only under the first test. The argument
    [silence_interval] is not used by the method. *)
Definition merge_by_speaker (self : Transcript) (answer : str) : result Transcript :=
  if (size (speakers self) <? 2)%nat
  then if bool_decide (lower (strip answer) = lit "n")
       then Ok self
       else merge self same_speaker
  else merge self same_speaker.

(** Division of a duration by an integer rounds the microseconds to the
    nearest integer, halves to the even one (the library's
    [_divide_and_round], on [divmod], which floors). *)
Definition divide_and_round (a b : Z) : Z :=
  let q := a / b in
  let r := 2 * (a mod b) in
  let greater_than_half := if 0 <? b then b <? r else r <? b in
  if greater_than_half || (r =? b) && (q mod 2 =? 1) then q + 1 else q.

(** [timedelta / int] *)
Definition timedelta_div (t : timedelta) (n : Z) : result timedelta :=
  if n =? 0 then Raise ZeroDivisionError else Ok (divide_and_round t n).

(** [Transcript.total_silence], [Transcript.total_speaking_time] are the
    fields of the same name. *)

(** [Transcript.avg_silence] *)
Definition avg_silence (self : Transcript) : result timedelta :=
  timedelta_div (total_silence self) (Z.of_nat (length (lines self)) - 1).

(** [Transcript.avg_speaking_time] *)
Definition avg_speaking_time (self : Transcript) : result timedelta :=
  timedelta_div (total_speaking_time self) (Z.of_nat (length (lines self))).

(** *** Specification-side definitions for them *)

(** The gaps between consecutive lines. *)
Fixpoint gaps (ls : list TranscriptLine) : list timedelta :=
  match ls with
  | [] => []
  | a :: ls' =>
      match ls' with
      | [] => []
      | b :: _ => line_sub b a :: gaps ls'
      end
  end.

(** No two neighbours have the same speaker. *)
Fixpoint speakers_alternate (ls : list TranscriptLine) : Prop :=
  match ls with
  | [] => True
  | a :: ls' =>
      match ls' with
      | [] => True
      | b :: _ => speaker a <> speaker b /\ speakers_alternate ls'
      end
  end.

(** A time that [__str__] can print: not negative and below one day. *)
Definition in_day (t : timedelta) : Prop := 0 <= t < us_per_day.

(** The blocks [parse_transcript] parses: those of the stripped
    contents, the header apart. *)
Definition blocks_of (contents : str) : list str :=
  match split_blank (strip contents) with
  | [] => []
  | first :: rest => if bool_decide (first = lit "WEBVTT") then rest else first :: rest
  end.

(** A block of the grammar of [parse_line], with the values of its two
    timestamps. *)
Definition grammar_block (blk : str) (l : TranscriptLine) : Prop :=
  exists (c : ascii) (ds st en : str),
    blk = (c :: ds) ++ nl :: st ++ lit " --> " ++ en ++ nl :: speaker l ++ lit ": " ++ text l /\
    is_digit19 c = true /\
    forallb is_digit ds = true /\
    Forall2 (fun k x => in_class k x = true) timestamp_pattern st /\
    Forall2 (fun k x => in_class k x = true) timestamp_pattern en /\
    parse_time st = Ok (start_time l) /\
    parse_time en = Ok (end_time l) /\
    existsb is_nl (speaker l ++ lit ": " ++ text l) = false /\
    greedy_split (speaker l ++ lit ": " ++ text l) = Some (speaker l, text l).

(** ** The command line: [MapAction] of [src/parser.py] *)

(** [s.split(sep)] for a separator of one character. *)
Fixpoint split_char (sep : ascii) (s : str) : list str :=
  match s with
  | [] => [[]]
  | c :: s' =>
      if bool_decide (c = sep) then [] :: split_char sep s'
      else cons_head c (split_char sep s')
  end.

(** Regular expressions, as far as [map_pattern] needs them. *)
Inductive regex : Type :=
| Nothing
| Epsilon
| Class (f : ascii -> bool)
| Seq (r1 r2 : regex)
| Alt (r1 r2 : regex)
| Star (r : regex).

(** [r+] *)
Definition Plus (r : regex) : regex := Seq r (Star r).

Fixpoint nullable (r : regex) : bool :=
  match r with
  | Nothing => false
  | Epsilon => true
  | Class _ => false
  | Seq r1 r2 => nullable r1 && nullable r2
  | Alt r1 r2 => nullable r1 || nullable r2
  | Star _ => true
  end.

(** The expression for what may follow [c]. *)
Fixpoint deriv (c : ascii) (r : regex) : regex :=
  match r with
  | Nothing => Nothing
  | Epsilon => Nothing
  | Class f => if f c then Epsilon else Nothing
  | Seq r1 r2 =>
      if nullable r1 then Alt (Seq (deriv c r1) r2) (deriv c r2)
      else Seq (deriv c r1) r2
  | Alt r1 r2 => Alt (deriv c r1) (deriv c r2)
  | Star r1 => Seq (deriv c r1) (Star r1)
  end.

(** [re.match(r, s) is not None]: some prefix of [s] matches [r]. *)
Fixpoint re_match (r : regex) (s : str) : bool :=
  nullable r ||
  match s with
  | [] => false
  | c :: s' => re_match (deriv c r) s'
  end.

Definition not_colon (c : ascii) : bool := negb (bool_decide (c = ":"%char)).
Definition is_colon (c : ascii) : bool := bool_decide (c = ":"%char).
Definition is_comma (c : ascii) : bool := bool_decide (c = ","%char).

(** One [key:value] of [map_pattern]: one or more characters that are no
    colon, a colon, and again one or more. *)
Definition pair_pattern : regex :=
  Seq (Plus (Class not_colon)) (Seq (Class is_colon) (Plus (Class not_colon))).

(** [map_pattern]: any number of pairs with a comma after each, then one
    pair. *)
Definition map_pattern : regex :=
  Seq (Star (Seq pair_pattern (Class is_comma))) pair_pattern.

(** What a call of an action of the argument parser does: it stores a
    value in the namespace, or it reports a usage error through
    [parser.error] (which ends the program), or an exception leaves it. *)
Inductive action_result (A : Type) : Type :=
| Stored (a : A)
| ParserError
| Uncaught (e : exn).

Arguments Stored {A} a.
Arguments ParserError {A}.
Arguments Uncaught {A} e.

(** The loop of [MapAction.__call__]: each piece is split at the colons
    and unpacked into a key and a value. *)
Fixpoint map_pairs (result_dict : gmap str str) (pieces : list str)
    : result (gmap str str) :=
  match pieces with
  | [] => Ok result_dict
  | piece :: pieces' =>
      match split_char ":" piece with
      | [key; value] => map_pairs (<[key := value]> result_dict) pieces'
      | _ => Raise ValueError
      end
  end.

(** [MapAction.__call__] on the argument [pairs]. *)
Definition MapAction_call (pairs : str) : action_result (gmap str str) :=
  if re_match map_pattern pairs
  then match map_pairs ∅ (split_char "," pairs) with
       | Ok result_dict => Stored result_dict
       | Raise e => Uncaught e
       end
  else ParserError.

(** *** Specification-side definitions for it *)

(** The strings a regular expression matches in full. *)
Inductive matches : regex -> str -> Prop :=
| matches_Epsilon : matches Epsilon []
| matches_Class (f : ascii -> bool) (c : ascii) : f c = true -> matches (Class f) [c]
| matches_Seq (r1 r2 : regex) (s1 s2 : str) :
    matches r1 s1 -> matches r2 s2 -> matches (Seq r1 r2) (s1 ++ s2)
| matches_Alt_l (r1 r2 : regex) (s : str) : matches r1 s -> matches (Alt r1 r2) s
| matches_Alt_r (r1 r2 : regex) (s : str) : matches r2 s -> matches (Alt r1 r2) s
| matches_Star_nil (r : regex) : matches (Star r) []
| matches_Star_app (r : regex) (s1 s2 : str) :
    matches r s1 -> matches (Star r) s2 -> matches (Star r) (s1 ++ s2).

(** The number of colons in a string. *)
Definition colons (s : str) : nat := length (filter (fun c => c = ":"%char) s).

(** A string that starts with a key and the first character of a value:
    characters that are no colon, at least one, then a colon, then a
    character that is no colon. *)
Definition starts_with_pair (s : str) : Prop :=
  exists (k : str) (c : ascii) (rest : str),
    s = k ++ ":"%char :: c :: rest /\
    k <> [] /\ colons k = 0%nat /\ c <> ":"%char.

(** The argument written for a list of keys and values. *)
Definition pairs_text (kvs : list (str * str)) : str :=
  join (lit ",") (map (fun kv => fst kv ++ lit ":" ++ snd kv) kvs).

(** * Properties *)

(** ** The error monad *)

Lemma bind_Ok_inv {A B : Type} (c : result A) (k : A -> result B) (b : B) :
  bind c k = Ok b -> exists a, c = Ok a /\ k a = Ok b.
Proof. destruct c as [a|e]; simpl; [eauto | discriminate]. Qed.

Ltac bind_inv H :=
  let a := fresh "a" in
  let Ha := fresh "Ha" in
  apply bind_Ok_inv in H; destruct H as (a & Ha & H).

(** ** [__add_item] and the invariant *)

Lemma sum_Z_app (l k : list Z) : sum_Z (l ++ k) = sum_Z l + sum_Z k.
Proof. unfold sum_Z. induction l as [|x l IH]; simpl; lia. Qed.

Lemma lines_add_item (T : Transcript) (l : TranscriptLine) :
  lines (add_item T l) = lines T ++ [l].
Proof. unfold add_item. destruct (last (lines T)); reflexivity. Qed.

Lemma lines_foldl_add_item (ls : list TranscriptLine) (T : Transcript) :
  lines (foldl add_item T ls) = lines T ++ ls.
Proof.
  revert T. induction ls as [|l ls IH]; intros T; simpl.
  - by rewrite app_nil_r.
  - rewrite IH, lines_add_item, <- app_assoc. reflexivity.
Qed.

Lemma lines_build (ls : list TranscriptLine) : lines (build ls) = ls.
Proof. unfold build. by rewrite lines_foldl_add_item. Qed.

Lemma Transcript_init_inv : Transcript_inv Transcript_init.
Proof. split; simpl; try reflexivity. Qed.

Lemma add_item_inv (T : Transcript) (l : TranscriptLine) :
  Transcript_inv T -> Transcript_inv (add_item T l).
Proof.
  intros [Hn Hs Hd Hsp]. unfold add_item.
  destruct (last (lines T)) as [prev|] eqn:Hlast.
  - assert (lines T <> []) as Hne by (intros E; rewrite E in Hlast; discriminate).
    assert (0 < length (lines T))%nat by (destruct (lines T); simpl; [congruence | lia]).
    split; simpl.
    + rewrite !length_app. simpl. lia.
    + rewrite sum_Z_app, Hs. unfold sum_Z. simpl. lia.
    + rewrite map_app, sum_Z_app, Hd. unfold sum_Z. simpl. lia.
    + rewrite map_app, list_to_set_app_L, Hsp. simpl.
      rewrite (right_id_L ∅ (∪)). apply (comm_L (∪)).
  - apply last_None in Hlast.
    split; simpl.
    + rewrite length_app. rewrite Hlast in *. simpl in *. lia.
    + exact Hs.
    + rewrite map_app, sum_Z_app, Hd. unfold sum_Z. simpl. lia.
    + rewrite map_app, list_to_set_app_L, Hsp. simpl.
      rewrite (right_id_L ∅ (∪)). apply (comm_L (∪)).
Qed.

Lemma foldl_add_item_inv (ls : list TranscriptLine) (T : Transcript) :
  Transcript_inv T -> Transcript_inv (foldl add_item T ls).
Proof.
  revert T. induction ls as [|l ls IH]; intros T HT; simpl; [exact HT|].
  apply IH, add_item_inv, HT.
Qed.

Lemma build_inv (ls : list TranscriptLine) : Transcript_inv (build ls).
Proof. apply foldl_add_item_inv, Transcript_init_inv. Qed.

(** ** Every constructing operation appends to a fresh transcript *)

Lemma build_snoc (ls : list TranscriptLine) (l : TranscriptLine) :
  add_item (build ls) l = build (ls ++ [l]).
Proof. unfold build. by rewrite foldl_app. Qed.

Lemma map_speakers_build (T : Transcript) (m : gmap str str) :
  map_speakers T m = build (map (remap m) (lines T)).
Proof.
  unfold map_speakers, build. generalize Transcript_init.
  induction (lines T) as [|l ls IH]; intros T0; simpl; [reflexivity|].
  rewrite IH. unfold remap. by destruct (m !! get_speaker l).
Qed.

Lemma parse_loop_build (blocks : list str) (T0 T : Transcript) :
  parse_loop T0 blocks = Ok T ->
  exists ls, Forall2 (fun b l => parse_line b = Ok l) blocks ls /\ T = foldl add_item T0 ls.
Proof.
  revert T0. induction blocks as [|b blocks IH]; intros T0 H; simpl in H.
  - exists []. split; [by constructor | simpl; congruence].
  - bind_inv H. destruct (IH _ H) as (ls & Hls & ->).
    exists (a :: ls). split; [by constructor | reflexivity].
Qed.

Lemma parse_loop_complete (blocks : list str) (ls : list TranscriptLine) (T0 : Transcript) :
  Forall2 (fun b l => parse_line b = Ok l) blocks ls ->
  parse_loop T0 blocks = Ok (foldl add_item T0 ls).
Proof.
  intros H. revert T0. induction H as [|b l blocks ls Hb _ IH]; intros T0; simpl.
  - reflexivity.
  - rewrite Hb. simpl. apply IH.
Qed.

Lemma py_mod_Ok (i n k : nat) : py_mod i n = Ok k -> k = (i mod n)%nat.
Proof. unfold py_mod. destruct n; [discriminate | congruence]. Qed.

Lemma py_index_Ok {A : Type} (l : list A) (i : nat) (x : A) :
  py_index l i = Ok x -> l !! i = Some x.
Proof. unfold py_index. destruct (l !! i); congruence. Qed.

Lemma alternate_loop_spec (names : list str) (rest : list TranscriptLine)
    (T0 T : Transcript) (i : nat) :
  alternate_loop names T0 i rest = Ok T ->
  exists ls,
    T = foldl add_item T0 ls /\
    length ls = length rest /\
    forall (j : nat) (l : TranscriptLine), rest !! j = Some l ->
      exists name,
        names !! ((i + j) mod length names)%nat = Some name /\
        ls !! j = Some (mkLine (start_time l) (end_time l) name (text l)).
Proof.
  revert T0 i. induction rest as [|line rest IH]; intros T0 i H; simpl in H.
  - exists []. split; [simpl; congruence|]. split; [reflexivity|]. intros j l Hj. discriminate.
  - bind_inv H. bind_inv H. rename a into k, a0 into name.
    destruct (IH _ _ H) as (ls & -> & Hlen & Hnth).
    exists (create (get_start_time line) (get_end_time line) name (get_text line) :: ls).
    split; [reflexivity|]. split; [simpl; lia|].
    intros [|j] l Hj; simpl in Hj.
    + inversion Hj; subst l. exists name. split; [|reflexivity].
      apply py_mod_Ok in Ha. apply py_index_Ok in Ha0.
      rewrite Nat.add_0_r. congruence.
    + destruct (Hnth j l Hj) as (nm & Hnm & Hl). exists nm.
      split; [|exact Hl]. by replace (i + S j)%nat with (S i + j)%nat by lia.
Qed.

Lemma alternate_loop_total (names : list str) (rest : list TranscriptLine)
    (T0 : Transcript) (i : nat) :
  names <> [] -> exists T, alternate_loop names T0 i rest = Ok T.
Proof.
  intros Hne. revert T0 i. induction rest as [|line rest IH]; intros T0 i; simpl.
  - eauto.
  - unfold py_mod. destruct (length names) as [|n] eqn:Hn.
    + destruct names; [congruence | discriminate].
    + destruct (lookup_lt_is_Some_2 names (i mod S n)%nat) as [name Hname].
      { rewrite Hn. apply Nat.mod_upper_bound. lia. }
      unfold bind at 1. unfold py_index. rewrite Hname. simpl. apply IH.
Qed.

(** ** The merge loop *)

Lemma last_cons_end (x y : TranscriptLine) (r : list TranscriptLine) :
  end_time x = end_time y ->
  end_time <$> last (x :: r) = end_time <$> last (y :: r).
Proof. intros E. destruct r; simpl; [by rewrite E | reflexivity]. Qed.

Lemma merge_loop_spec (p : predicate) (rest : list TranscriptLine)
    (M M' : Transcript) (acc acc' : TranscriptLine) :
  merge_loop p M acc rest = Ok (M', acc') ->
  exists out,
    M' = foldl add_item M out /\
    start_time <$> head (out ++ [acc']) = Some (start_time acc) /\
    Some (end_time acc') = end_time <$> last (acc :: rest).
Proof.
  revert M acc. induction rest as [|curr rest IH]; intros M acc H; simpl in H.
  - inversion H; subst. exists []. by repeat split.
  - bind_inv H. destruct a.
    + destruct (IH _ _ H) as (out & -> & Hhd & Hlast).
      exists out. split; [reflexivity|]. split; [exact Hhd|].
      rewrite Hlast. rewrite last_cons_cons.
      by apply last_cons_end.
    + destruct (IH _ _ H) as (out & -> & Hhd & Hlast).
      exists (acc :: out). split; [reflexivity|]. split; [reflexivity|].
      by rewrite last_cons_cons.
Qed.

Lemma merge_loop_total (p : predicate) (rest : list TranscriptLine)
    (M : Transcript) (acc : TranscriptLine) :
  total_predicate p -> exists r, merge_loop p M acc rest = Ok r.
Proof.
  intros Hp. revert M acc. induction rest as [|curr rest IH]; intros M acc; simpl.
  - eauto.
  - destruct (Hp acc curr) as [v ->]. simpl. destruct v; apply IH.
Qed.

Lemma merge_spec (T T' : Transcript) (p : predicate) :
  merge T p = Ok T' ->
  exists first rest out acc',
    lines T = first :: rest /\
    T' = build (out ++ [acc']) /\
    start_time <$> head (out ++ [acc']) = Some (start_time first) /\
    Some (end_time acc') = end_time <$> last (first :: rest).
Proof.
  unfold merge. destruct (lines T) as [|first rest] eqn:Hl; [discriminate|].
  intros H. bind_inv H. destruct a as [M acc'].
  destruct (merge_loop_spec _ _ _ _ _ _ Ha) as (out & -> & Hhd & Hlast).
  exists first, rest, out, acc'. repeat split; try assumption.
  inversion H. unfold build. by rewrite foldl_app.
Qed.

Lemma merge_total (T : Transcript) (p : predicate) :
  lines T <> [] -> total_predicate p -> exists T', merge T p = Ok T'.
Proof.
  intros Hne Hp. unfold merge. destruct (lines T) as [|first rest]; [congruence|].
  destruct (merge_loop_total p rest Transcript_init first Hp) as [[M acc] ->].
  simpl. eauto.
Qed.

Lemma same_speaker_total : total_predicate same_speaker.
Proof. intros a b. unfold same_speaker. eauto. Qed.

(** ** [sorted] is a stable sort *)

Section Sorting.

Context {A : Type} (key : A -> Z).

Lemma insert_by_Permutation (x : A) (l : list A) :
  Permutation (insert_by key x l) (x :: l).
Proof.
  induction l as [|y l IH]; simpl; [reflexivity|].
  destruct (key x <=? key y); [reflexivity|].
  rewrite IH. apply perm_swap.
Qed.

Lemma sorted_Permutation (l : list A) : Permutation (sorted key l) l.
Proof.
  induction l as [|x l IH]; simpl; [reflexivity|].
  rewrite insert_by_Permutation. by constructor.
Qed.

Lemma sorted_length (l : list A) : length (sorted key l) = length l.
Proof. apply Permutation_length, sorted_Permutation. Qed.

Lemma insert_by_HdRel (a x : A) (l : list A) :
  key a <= key x -> HdRel (key_le key) a l -> HdRel (key_le key) a (insert_by key x l).
Proof.
  intros Hax Hl. destruct l as [|y l]; simpl.
  - by constructor.
  - destruct (key x <=? key y); constructor; [exact Hax|].
    by inversion Hl.
Qed.

Lemma insert_by_Sorted (x : A) (l : list A) :
  Sorted (key_le key) l -> Sorted (key_le key) (insert_by key x l).
Proof.
  induction 1 as [|y l Hl IH Hy]; simpl.
  - repeat constructor.
  - destruct (key x <=? key y) eqn:E.
    + constructor; [by constructor|]. constructor. unfold key_le. lia.
    + constructor; [exact IH|]. apply insert_by_HdRel; [lia | exact Hy].
Qed.

Lemma sorted_Sorted (l : list A) : Sorted (key_le key) (sorted key l).
Proof.
  induction l as [|x l IH]; simpl; [constructor|].
  by apply insert_by_Sorted.
Qed.

Lemma sorted_ascending (l : list A) : ascending key (sorted key l).
Proof.
  apply Sorted_StronglySorted; [|apply sorted_Sorted].
  intros a b c. unfold key_le. lia.
Qed.

Lemma insert_by_filter (k : Z) (x : A) (l : list A) :
  filter (fun y => key y = k) (insert_by key x l) = filter (fun y => key y = k) (x :: l).
Proof.
  induction l as [|y l IH]; simpl; [reflexivity|].
  destruct (key x <=? key y) eqn:E; [reflexivity|].
  rewrite (filter_cons _ y), IH, !filter_cons.
  destruct (decide (key y = k)), (decide (key x = k)); try reflexivity.
  lia.
Qed.

Lemma sorted_stable (l : list A) : stable_wrt key (sorted key l) l.
Proof.
  intros k. induction l as [|x l IH]; simpl; [reflexivity|].
  rewrite insert_by_filter, !filter_cons, IH. reflexivity.
Qed.

Lemma sorted_middle (l : list A) :
  l <> [] -> exists x, sorted key l !! (length l / 2)%nat = Some x.
Proof.
  intros Hne. apply lookup_lt_is_Some_2. rewrite sorted_length.
  destruct l; [congruence|]. simpl length. apply Nat.div_lt; lia.
Qed.

End Sorting.

(** ** The data-model invariant *)

(** C5. Every transcript returned by [parse_transcript], [map_speakers],
    [alternate_speakers] or [merge] satisfies the invariant: there are
    [max(0, number of lines - 1)] silence intervals, [total_silence] is
    their sum, [total_speaking_time] is the sum of the lines' durations,
    and the speaker set is the set of the lines' speakers. *)
Theorem constructed_inv (T : Transcript) : constructed T -> Transcript_inv T.
Proof.
  destruct 1 as [contents T H | T m | T T' names H | T T' p H].
  - unfold parse_transcript in H.
    destruct (split_blank (strip contents)) as [|first rest]; [discriminate|].
    apply parse_loop_build in H. destruct H as (ls & _ & ->).
    apply build_inv.
  - rewrite map_speakers_build. apply build_inv.
  - apply alternate_loop_spec in H. destruct H as (ls & -> & _).
    apply build_inv.
  - apply merge_spec in H. destruct H as (first & rest & out & acc' & _ & -> & _).
    apply build_inv.
Qed.

Lemma constructed_inv_witness :
  constructed ex_two_lines /\ Transcript_inv ex_two_lines.
Proof.
  assert (constructed ex_two_lines) as H.
  { apply (constructed_merge ex_two_lines ex_two_lines (fun _ _ => Ok false)).
    vm_compute. reflexivity. }
  split; [exact H | apply (constructed_inv ex_two_lines H)].
Defined.

(** ** merge *)

(** C6. On a transcript with at least one line, whatever the predicate,
    a transcript returned by [merge] starts when the original starts and
    ends when the original ends; and [merge] does return when the
    predicate returns on every pair. *)
Theorem merge_preserves_span (T : Transcript) (p : predicate) :
  lines T <> [] ->
  (forall T', merge T p = Ok T' ->
     lines T' <> [] /\
     start_time <$> head (lines T') = start_time <$> head (lines T) /\
     end_time <$> last (lines T') = end_time <$> last (lines T))
  /\ (total_predicate p -> exists T', merge T p = Ok T').
Proof.
  intros Hne. split; [|by apply merge_total].
  intros T' H. apply merge_spec in H.
  destruct H as (first & rest & out & acc' & Hl & -> & Hhd & Hlast).
  rewrite lines_build, Hl. split; [by destruct out|]. split.
  - exact Hhd.
  - rewrite <- Hlast. by rewrite last_snoc.
Qed.

Lemma merge_preserves_span_witness :
  lines ex_three_lines <> [] /\
  exists T', merge ex_three_lines same_speaker = Ok T' /\
    start_time <$> head (lines T') = Some 0 /\
    end_time <$> last (lines T') = Some 6000000.
Proof.
  assert (lines ex_three_lines <> []) as Hne by (vm_compute; discriminate).
  split; [exact Hne|].
  destruct (merge_preserves_span ex_three_lines same_speaker Hne) as [Hspan Htot].
  destruct (Htot same_speaker_total) as [T' HT'].
  exists T'. split; [exact HT'|].
  destruct (Hspan T' HT') as (_ & Hs & He).
  split; [exact Hs | exact He].
Defined.

Lemma line_eq_refl (l : TranscriptLine) : line_eq l l = true.
Proof.
  unfold line_eq. rewrite !Z.eqb_refl, !bool_decide_eq_true_2; reflexivity.
Qed.

Lemma transcript_eq_lines (T T' : Transcript) :
  lines T = lines T' -> transcript_eq T T' = true.
Proof.
  intros E. unfold transcript_eq, num_lines, get_lines. rewrite <- E.
  rewrite Nat.eqb_refl. simpl. apply forallb_forall. intros i Hi.
  apply in_seq in Hi. destruct (lookup_lt_is_Some_2 (lines T) i) as [l Hl]; [lia|].
  rewrite Hl. apply line_eq_refl.
Qed.

Lemma Transcript_inv_single (T : Transcript) (l : TranscriptLine) :
  Transcript_inv T -> lines T = [l] -> T = add_item Transcript_init l.
Proof.
  intros [Hn Hs Hd Hsp] Hl. destruct T as [ls sp si tsp tsi]. simpl in *. subst ls.
  simpl in *. destruct si; [|simpl in Hn; lia]. subst.
  unfold add_item, Transcript_init, timedelta0, sum_Z. simpl. f_equal. lia.
Qed.

(** C9. On a transcript with exactly one line, [merge] returns, whatever
    the predicate (a predicate that is never called cannot make it
    raise), a transcript with that one line: it is equal to the original
    under [__eq__], and is the original when the original satisfies the
    invariant. *)
Theorem merge_single_line (T : Transcript) (l : TranscriptLine) (p : predicate) :
  lines T = [l] ->
  exists T',
    merge T p = Ok T' /\
    merge T (fun _ _ => Raise ValueError) = Ok T' /\
    lines T' = [l] /\
    transcript_eq T' T = true /\
    (Transcript_inv T -> T' = T).
Proof.
  intros Hl. exists (add_item Transcript_init l).
  unfold merge. rewrite Hl. simpl.
  repeat split.
  - apply transcript_eq_lines. by rewrite Hl.
  - intros HT. symmetry. by apply Transcript_inv_single.
Qed.

Lemma merge_single_line_witness :
  exists T', merge (build [ex_hello]) same_speaker = Ok T' /\ lines T' = [ex_hello].
Proof.
  destruct (merge_single_line (build [ex_hello]) ex_hello same_speaker eq_refl)
    as (T' & H1 & _ & H2 & _).
  exists T'. split; [exact H1 | exact H2].
Defined.

(** ** alternate_speakers *)

(** C7, as stated, fails: with an empty list of names the empty
    transcript is returned unchanged, no exception is raised. *)
Lemma alternate_speakers_empty_names_returns :
  alternate_speakers Transcript_init [] = Ok Transcript_init /\
  ~ (forall T : Transcript, exists e : exn, alternate_speakers T [] = Raise e).
Proof.
  split; [reflexivity|].
  intros H. destruct (H Transcript_init) as [e He]. discriminate He.
Qed.

(** C7, amended. With a non-empty list of names, [alternate_speakers]
    returns a transcript with as many lines, whose i-th line has the
    speaker [names[i mod len(names)]] and the other fields of the i-th
    original line. With an empty list it raises [ZeroDivisionError] on
    every transcript that has a line, and returns an empty transcript on
    the empty one. *)
Theorem alternate_speakers_spec (T : Transcript) (names : list str) :
  (names <> [] ->
     exists T',
       alternate_speakers T names = Ok T' /\
       length (lines T') = length (lines T) /\
       forall (i : nat) (l : TranscriptLine), lines T !! i = Some l ->
         exists name,
           names !! (i mod length names)%nat = Some name /\
           lines T' !! i = Some (mkLine (start_time l) (end_time l) name (text l)))
  /\ (names = [] ->
        (lines T <> [] -> alternate_speakers T names = Raise ZeroDivisionError) /\
        (lines T = [] -> alternate_speakers T names = Ok Transcript_init)).
Proof.
  split.
  - intros Hne. unfold alternate_speakers.
    destruct (alternate_loop_total names (lines T) Transcript_init 0 Hne) as [T' HT'].
    exists T'. split; [exact HT'|].
    apply alternate_loop_spec in HT'. destruct HT' as (ls & -> & Hlen & Hnth).
    fold (build ls). rewrite lines_build. split; [exact Hlen|].
    intros i l Hi. destruct (Hnth i l Hi) as (name & Hname & Hl).
    exists name. split; [exact Hname | exact Hl].
  - intros ->. unfold alternate_speakers. split.
    + intros Hne. destruct (lines T); [congruence | reflexivity].
    + intros ->. reflexivity.
Qed.

Lemma alternate_speakers_spec_witness :
  exists T',
    alternate_speakers ex_three_lines [lit "X"; lit "Y"] = Ok T' /\
    lines T' !! 2%nat = Some (mkLine 5000000 6000000 (lit "X") (lit "bye")).
Proof.
  assert ([lit "X"; lit "Y"] <> []) as Hne by discriminate.
  destruct (proj1 (alternate_speakers_spec ex_three_lines [lit "X"; lit "Y"]) Hne)
    as (T' & HT' & _ & Hnth).
  exists T'. split; [exact HT'|].
  destruct (Hnth 2%nat ex_bye eq_refl) as (name & Hname & Hl).
  vm_compute in Hname. inversion Hname; subst name. exact Hl.
Defined.

(** ** merge_by_silence_interval *)

Lemma median_silence_Ok (T : Transcript) :
  Transcript_inv T -> (2 <= length (lines T))%nat -> exists g, median_silence T = Ok g.
Proof.
  intros [Hn _ _ _] Hlen. unfold median_silence, get_silence_intervals, py_index.
  destruct (sorted_middle id (silence_intervals T)) as [g Hg].
  { destruct (silence_intervals T); [simpl in Hn; lia | discriminate]. }
  exists g. rewrite sorted_length. by rewrite Hg.
Qed.

(** C8. On a transcript with at least two lines, with speakers not
    ignored, [merge_by_silence_interval] returns the same transcript for
    any two intervals (given or defaulted): the one [merge] returns with
    the same-speaker predicate alone. *)
Theorem merge_by_silence_interval_ignores_interval
    (T : Transcript) (i1 i2 : option timedelta) :
  Transcript_inv T ->
  (2 <= length (lines T))%nat ->
  exists T',
    merge T same_speaker = Ok T' /\
    merge_by_silence_interval T i1 false = Ok T' /\
    merge_by_silence_interval T i2 false = Ok T'.
Proof.
  intros HT Hlen.
  destruct (merge_total T same_speaker) as [T' HT'].
  { destruct (lines T); [simpl in Hlen; lia | discriminate]. }
  { apply same_speaker_total. }
  destruct (median_silence_Ok T HT Hlen) as [g Hg].
  exists T'. split; [exact HT'|].
  unfold merge_by_silence_interval, py_and, callable_truth. simpl.
  split; [destruct i1 | destruct i2]; rewrite ?Hg; simpl; exact HT'.
Qed.

Lemma merge_by_silence_interval_ignores_interval_witness :
  exists T',
    merge ex_three_lines same_speaker = Ok T' /\
    merge_by_silence_interval ex_three_lines None false = Ok T' /\
    merge_by_silence_interval ex_three_lines (Some 1000000) false = Ok T'.
Proof.
  apply (merge_by_silence_interval_ignores_interval ex_three_lines None (Some 1000000)).
  - apply build_inv.
  - vm_compute. lia.
Defined.

(** C1: the code at the failing input. The two lines have the same
    speaker and a gap of half a second, below the interval of one second;
    the code merges them, the conjunction of the two conditions keeps
    them apart. *)
Theorem merge_by_silence_interval_at_short_gap :
  merge_by_silence_interval ex_two_lines (Some 1000000) false
    = Ok (build [merged_line ex_hello ex_world]) /\
  merge ex_two_lines (spec_silence_and_same_speaker 1000000) = Ok ex_two_lines.
Proof. split; vm_compute; reflexivity. Qed.

(** ** Statistics *)

(** C10. [std_speaking_time] returns the zero duration on every
    transcript. *)
Theorem std_speaking_time_zero (T : Transcript) : std_speaking_time T = timedelta0.
Proof. reflexivity. Qed.

(** C3, as stated, fails: on two lines the median speaking time is the
    longer duration, and on two gaps the median silence is the longer
    gap, not the lower middle ones. *)
Lemma median_not_lower_middle :
  median_speaking_time ex_two_lines = Ok 2000000 /\
  spec_median_speaking_time ex_two_lines = Ok 1500000 /\
  median_silence ex_three_lines = Ok 1000000 /\
  spec_median_silence ex_three_lines = Ok 500000.
Proof. repeat split; vm_compute; reflexivity. Qed.

(** C3, amended. On a transcript with at least one line,
    [median_speaking_time] returns the duration at index [N / 2]
    (0-indexed, [N] the number of lines) of the lines sorted by duration,
    ascending and stable: the middle one for an odd [N], the upper of the
    two middle ones for an even [N]. On a transcript with at least two
    lines, [median_silence] returns the gap at index [M / 2] of the gaps
    sorted ascending, [M = N - 1]: the upper middle one for an even [M]. *)
Theorem median_upper_middle (T : Transcript) :
  (lines T <> [] ->
     exists (s : list TranscriptLine) (l : TranscriptLine),
       Permutation s (lines T) /\
       ascending get_duration s /\
       stable_wrt get_duration s (lines T) /\
       s !! (length (lines T) / 2)%nat = Some l /\
       (forall k : nat, length (lines T) = (2 * k)%nat -> s !! k = Some l) /\
       (forall k : nat, length (lines T) = (2 * k + 1)%nat -> s !! k = Some l) /\
       median_speaking_time T = Ok (get_duration l))
  /\ (Transcript_inv T -> (2 <= length (lines T))%nat ->
        exists (s : list timedelta) (g : timedelta),
          Permutation s (silence_intervals T) /\
          ascending id s /\
          length s = (length (lines T) - 1)%nat /\
          s !! (length s / 2)%nat = Some g /\
          (forall k : nat, length s = (2 * k)%nat -> s !! k = Some g) /\
          (forall k : nat, length s = (2 * k + 1)%nat -> s !! k = Some g) /\
          median_silence T = Ok g).
Proof.
  split.
  - intros Hne. destruct (sorted_middle get_duration (lines T) Hne) as [l Hl].
    exists (sorted get_duration (lines T)), l.
    split; [apply sorted_Permutation|].
    split; [apply sorted_ascending|].
    split; [apply sorted_stable|].
    split; [exact Hl|].
    split; [|split].
    + intros k Hk. rewrite Hk in Hl.
      by replace (2 * k / 2)%nat with k in Hl by (apply Nat.div_unique with 0%nat; lia).
    + intros k Hk. rewrite Hk in Hl.
      by replace ((2 * k + 1) / 2)%nat with k in Hl by (apply Nat.div_unique with 1%nat; lia).
    + unfold median_speaking_time, py_index. by rewrite Hl.
  - intros [Hn _ _ _] Hlen.
    assert (silence_intervals T <> []) as Hne.
    { destruct (silence_intervals T); [simpl in Hn; lia | discriminate]. }
    destruct (sorted_middle id (silence_intervals T) Hne) as [g Hg].
    exists (sorted id (silence_intervals T)), g.
    rewrite sorted_length.
    split; [apply sorted_Permutation|].
    split; [apply sorted_ascending|].
    split; [lia|].
    split; [exact Hg|].
    split; [|split].
    + intros k Hk. rewrite Hk in Hg.
      by replace (2 * k / 2)%nat with k in Hg by (apply Nat.div_unique with 0%nat; lia).
    + intros k Hk. rewrite Hk in Hg.
      by replace ((2 * k + 1) / 2)%nat with k in Hg by (apply Nat.div_unique with 1%nat; lia).
    + unfold median_silence, get_silence_intervals, py_index.
      rewrite sorted_length. by rewrite Hg.
Qed.

Lemma median_upper_middle_witness :
  lines ex_two_lines <> [] /\
  (2 <= length (lines ex_three_lines))%nat /\
  (exists l, median_speaking_time ex_two_lines = Ok (get_duration l)) /\
  (exists g, median_silence ex_three_lines = Ok g).
Proof.
  assert (lines ex_two_lines <> []) as H1 by (vm_compute; discriminate).
  assert (2 <= length (lines ex_three_lines))%nat as H2 by (vm_compute; lia).
  split; [exact H1|]. split; [exact H2|]. split.
  - destruct (proj1 (median_upper_middle ex_two_lines) H1)
      as (s & l & _ & _ & _ & _ & _ & _ & Hm).
    exists l. exact Hm.
  - destruct (proj2 (median_upper_middle ex_three_lines) (build_inv _) H2)
      as (s & g & _ & _ & _ & _ & _ & _ & Hm).
    exists g. exact Hm.
Defined.

(** ** The line pattern *)

Ltac list_norm := repeat (rewrite <- app_assoc || rewrite <- app_comm_cons).

Lemma greedy_split_cons (c : ascii) (r : str) :
  greedy_split (c :: r) =
  match greedy_split r with
  | Some (s, t) => Some (c :: s, t)
  | None =>
      match r with
      | c1 :: c2 :: d :: t =>
          if bool_decide (c1 = ":"%char) && bool_decide (c2 = " "%char)
          then Some ([c], d :: t)
          else None
      | _ => None
      end
  end.
Proof. reflexivity. Qed.

Lemma greedy_split_app (r s t : str) :
  greedy_split r = Some (s, t) ->
  r = s ++ lit ": " ++ t /\ s <> [] /\ t <> [].
Proof.
  revert s t. induction r as [|c r IH]; intros s t H; simpl in H; [discriminate|].
  destruct (greedy_split r) as [[s0 t0]|].
  - inversion H; subst. destruct (IH s0 t (eq_refl _)) as (-> & _ & Ht).
    repeat split; [discriminate | exact Ht].
  - destruct r as [|c1 [|c2 [|d t']]]; try discriminate.
    destruct (bool_decide (c1 = ":"%char)) eqn:E1; [|discriminate].
    destruct (bool_decide (c2 = " "%char)) eqn:E2; [|discriminate].
    apply bool_decide_eq_true_1 in E1, E2. simpl in H. inversion H; subst.
    repeat split; discriminate.
Qed.

Lemma greedy_split_complete (s t : str) :
  s <> [] -> t <> [] -> exists s1 t1, greedy_split (s ++ lit ": " ++ t) = Some (s1, t1).
Proof.
  intros Hs Ht. induction s as [|c s IH]; [congruence|].
  destruct s as [|c' s].
  - destruct t as [|d t]; [congruence|].
    change ([c] ++ lit ": " ++ d :: t) with (c :: ":"%char :: " "%char :: d :: t).
    rewrite greedy_split_cons.
    remember (greedy_split (":"%char :: " "%char :: d :: t)) as g.
    destruct g as [[s0 t0]|]; [eauto|]. simpl. eauto.
  - destruct IH as (s1 & t1 & E); [discriminate|].
    change ((c :: c' :: s) ++ lit ": " ++ t) with (c :: ((c' :: s) ++ lit ": " ++ t)).
    rewrite greedy_split_cons, E. eauto.
Qed.

Lemma greedy_split_longest (r s t : str) :
  greedy_split r = Some (s, t) ->
  forall s' t', r = s' ++ lit ": " ++ t' -> s' <> [] -> t' <> [] ->
    (length s' <= length s)%nat.
Proof.
  revert s t. induction r as [|c r IH]; intros s t H s' t' Hr Hs' Ht'; [discriminate|].
  pose proof (greedy_split_app _ _ _ H) as (_ & Hs & _).
  rewrite greedy_split_cons in H.
  destruct s' as [|c' s']; [congruence|]. simpl in Hr. injection Hr as -> ->.
  destruct s' as [|c'' s'].
  - destruct s; [congruence | simpl; lia].
  - destruct (greedy_split_complete (c'' :: s') t') as (s1 & t1 & E);
      [discriminate | exact Ht' |].
    change (lit ": " ++ t') with (":"%char :: " "%char :: t') in E.
    rewrite E in H. injection H as <- <-.
    specialize (IH s1 t1 E (c'' :: s') t' (eq_refl _)).
    simpl in *. apply le_n_S, IH; [discriminate | exact Ht'].
Qed.

Lemma match_classes_app (p : list char_class) (s m rest : str) :
  match_classes p s = Some (m, rest) ->
  s = m ++ rest /\ Forall2 (fun k c => in_class k c = true) p m.
Proof.
  revert s m. induction p as [|k p IH]; intros s m H; simpl in H.
  - inversion H; subst. split; [reflexivity | constructor].
  - destruct s as [|c s]; [discriminate|].
    destruct (in_class k c) eqn:Hk; [|discriminate].
    destruct (match_classes p s) as [[m0 rest0]|] eqn:E; [|discriminate].
    inversion H; subst. destruct (IH _ _ E) as [-> HF].
    split; [reflexivity | by constructor].
Qed.

Lemma match_classes_complete (p : list char_class) (m rest : str) :
  Forall2 (fun k c => in_class k c = true) p m ->
  match_classes p (m ++ rest) = Some (m, rest).
Proof.
  induction 1 as [|k c p m Hk _ IH]; simpl; [reflexivity|].
  by rewrite Hk, IH.
Qed.

Lemma is_digit_not_nl (c : ascii) : is_digit c = true -> is_nl c = false.
Proof.
  intros H. unfold is_nl. apply bool_decide_eq_false_2. intros ->.
  vm_compute in H. discriminate.
Qed.

Lemma skip_digits_app (s : str) :
  exists ds, s = ds ++ skip_digits s /\ forallb is_digit ds = true.
Proof.
  induction s as [|c s (ds & IH1 & IH2)]; simpl.
  - by exists [].
  - destruct (is_digit c) eqn:E.
    + exists (c :: ds). simpl. rewrite E, IH2. split; [by f_equal | reflexivity].
    + by exists [].
Qed.

Lemma skip_digits_stop (ds rest : str) (d : ascii) :
  forallb is_digit ds = true -> is_digit d = false ->
  skip_digits (ds ++ d :: rest) = d :: rest.
Proof.
  intros Hds Hd. induction ds as [|c ds IH]; simpl in *.
  - by rewrite Hd.
  - apply andb_true_iff in Hds. destruct Hds as [-> Hds]. by apply IH.
Qed.

Lemma is_digit19_is_digit (c : ascii) : is_digit19 c = true -> is_digit c = true.
Proof.
  unfold is_digit19, is_digit. intros H.
  apply andb_true_iff in H. destruct H as [H1 H2].
  apply Nat.leb_le in H1. apply andb_true_iff. split; [apply Nat.leb_le; lia | exact H2].
Qed.

Lemma match_line_num_inv (s rest : str) :
  match_line_num s = Some rest ->
  exists num, s = num ++ nl :: rest /\ num <> [] /\ forallb is_digit num = true.
Proof.
  unfold match_line_num. destruct s as [|c s]; [discriminate|].
  destruct (is_digit19 c) eqn:Hc; [|discriminate].
  destruct (skip_digits_app s) as (ds & Hs & Hds).
  destruct (skip_digits s) as [|d rest']; [discriminate|].
  destruct (is_nl d) eqn:Hd; [|discriminate].
  intros H. inversion H; subst rest'. apply bool_decide_eq_true_1 in Hd. subst d.
  exists (c :: ds). split; [simpl; by f_equal|]. split; [discriminate|].
  simpl. by rewrite (is_digit19_is_digit _ Hc), Hds.
Qed.

Lemma match_line_num_complete (c : ascii) (ds rest : str) :
  is_digit19 c = true -> forallb is_digit ds = true ->
  match_line_num ((c :: ds) ++ nl :: rest) = Some rest.
Proof.
  intros Hc Hds. simpl. rewrite Hc.
  rewrite skip_digits_stop; [|exact Hds | reflexivity].
  reflexivity.
Qed.

Lemma match_chars_exact (w m : str) :
  Forall2 (fun k c => in_class k c = true) (map Char w) m -> m = w.
Proof.
  revert m. induction w as [|a w IH]; intros m H; simpl in H.
  - by inversion H.
  - inversion H as [|k c p m' Hk Hm]; subst.
    apply bool_decide_eq_true_1 in Hk. subst c. f_equal. by apply IH.
Qed.

Lemma match_body_inv (body st en sp tx : str) :
  match_body body = Some (st, en, sp, tx) ->
  body = st ++ lit " --> " ++ en ++ nl :: (sp ++ lit ": " ++ tx) /\
  Forall2 (fun k c => in_class k c = true) timestamp_pattern st /\
  Forall2 (fun k c => in_class k c = true) timestamp_pattern en /\
  existsb is_nl (sp ++ lit ": " ++ tx) = false /\
  greedy_split (sp ++ lit ": " ++ tx) = Some (sp, tx).
Proof.
  unfold match_body. intros H.
  destruct (match_classes timestamp_pattern body) as [[st' r1]|] eqn:E1; [|discriminate].
  destruct (match_classes arrow_pattern r1) as [[ar r2]|] eqn:E2; [|discriminate].
  destruct (match_classes timestamp_pattern r2) as [[en' r3]|] eqn:E3; [|discriminate].
  destruct (match_classes [Char nl] r3) as [[n r4]|] eqn:E4; [|discriminate].
  destruct (existsb is_nl r4) eqn:E5; [discriminate|].
  destruct (greedy_split r4) as [[sp' tx']|] eqn:E6; [|discriminate].
  injection H as -> -> -> ->.
  apply match_classes_app in E1, E2, E3, E4.
  destruct E1 as [-> F1], E2 as [-> F2], E3 as [-> F3], E4 as [-> F4].
  change arrow_pattern with (map Char (lit " --> ")) in F2.
  change [Char nl] with (map Char [nl]) in F4.
  apply match_chars_exact in F2, F4. subst ar n.
  destruct (greedy_split_app _ _ _ E6) as (Hr & _ & _). subst r4.
  repeat split; assumption.
Qed.

Lemma match_body_complete (st en sp tx : str) :
  Forall2 (fun k c => in_class k c = true) timestamp_pattern st ->
  Forall2 (fun k c => in_class k c = true) timestamp_pattern en ->
  existsb is_nl (sp ++ lit ": " ++ tx) = false ->
  greedy_split (sp ++ lit ": " ++ tx) = Some (sp, tx) ->
  match_body (st ++ lit " --> " ++ en ++ nl :: (sp ++ lit ": " ++ tx))
    = Some (st, en, sp, tx).
Proof.
  intros F1 F3 E5 E6. unfold match_body.
  rewrite (match_classes_complete _ _ _ F1).
  change (lit " --> " ++ en ++ nl :: (sp ++ lit ": " ++ tx))
    with (lit " --> " ++ (en ++ nl :: (sp ++ lit ": " ++ tx))).
  rewrite (match_classes_complete arrow_pattern (lit " --> ")).
  2:{ repeat constructor. }
  rewrite (match_classes_complete _ _ _ F3).
  change (nl :: (sp ++ lit ": " ++ tx)) with ([nl] ++ (sp ++ lit ": " ++ tx)).
  rewrite (match_classes_complete [Char nl] [nl]).
  2:{ repeat constructor. }
  by rewrite E5, E6.
Qed.

(** C4, as stated, fails: with two separators on the third line the
    speaker runs up to the last one, where the split at the first one
    gives the speaker ["A"] and the text ["b: c"]. *)
Lemma parse_line_not_first_separator :
  parse_line ex_block = Ok (mkLine 0 1000000 (lit "A: b") (lit "c")) /\
  spec_split_first (lit "A: b: c") = Some (lit "A", lit "b: c").
Proof. split; vm_compute; reflexivity. Qed.

(** C4, amended. A parsed block ends with a third line (the part after
    its last newline) of the form [speaker ++ ": " ++ text], both not
    empty, and among all such decompositions of the third line the
    parsed speaker is the longest: the split is at the last [": "] that
    has a character after it. *)
Theorem parse_line_splits_at_last_separator (block : str) (l : TranscriptLine) :
  parse_line block = Ok l ->
  exists pre third : str,
    block = pre ++ third /\
    last pre = Some nl /\
    existsb is_nl third = false /\
    third = speaker l ++ lit ": " ++ text l /\
    speaker l <> [] /\
    text l <> [] /\
    forall s t : str, third = s ++ lit ": " ++ t -> s <> [] -> t <> [] ->
      (length s <= length (speaker l))%nat.
Proof.
  unfold parse_line, match_line. intros H.
  destruct (match_line_num block) as [body|] eqn:E0; [|discriminate].
  destruct (match_body body) as [[[[st en] sp] tx]|] eqn:E1; [|discriminate].
  bind_inv H. bind_inv H. injection H as <-. simpl.
  apply match_line_num_inv in E0. destruct E0 as (num & -> & _ & _).
  apply match_body_inv in E1. destruct E1 as (-> & _ & _ & Hnl & Hg).
  exists (num ++ nl :: st ++ lit " --> " ++ en ++ [nl]), (sp ++ lit ": " ++ tx).
  split.
  { list_norm. reflexivity. }
  split.
  { replace (num ++ nl :: st ++ lit " --> " ++ en ++ [nl])
      with ((num ++ nl :: st ++ lit " --> " ++ en) ++ [nl])
      by (list_norm; reflexivity).
    apply last_snoc. }
  split; [exact Hnl|]. split; [reflexivity|].
  destruct (greedy_split_app _ _ _ Hg) as (_ & Hsp & Htx).
  split; [exact Hsp|]. split; [exact Htx|].
  intros s t Hst Hs Ht. by apply (greedy_split_longest _ _ _ Hg s t).
Qed.

Lemma parse_line_splits_at_last_separator_witness :
  exists pre third : str,
    ex_block = pre ++ third /\ third = lit "A: b" ++ lit ": " ++ lit "c".
Proof.
  destruct (parse_line_splits_at_last_separator ex_block
              (mkLine 0 1000000 (lit "A: b") (lit "c")))
    as (pre & third & H1 & _ & _ & H2 & _).
  - vm_compute. reflexivity.
  - exists pre, third. split; [exact H1 | exact H2].
Defined.

(** ** Timestamps *)

Lemma is_digit_val (c : ascii) :
  is_digit c = true -> 0 <= digit_val c <= 9 /\ digit_char (digit_val c) = c.
Proof.
  unfold is_digit, digit_val, digit_char. intros H.
  apply andb_true_iff in H. destruct H as [H1 H2].
  apply Nat.leb_le in H1, H2. split; [lia|].
  replace (Z.to_nat (Z.of_nat (nat_of_ascii c) - 48 + 48)) with (nat_of_ascii c) by lia.
  apply ascii_nat_embedding.
Qed.

Lemma two_digits_val (a b : ascii) :
  is_digit a = true -> is_digit b = true ->
  two_digits (10 * digit_val a + digit_val b) = [a; b].
Proof.
  intros Ha Hb. destruct (is_digit_val a Ha) as [Ba Ea], (is_digit_val b Hb) as [Bb Eb].
  unfold two_digits.
  replace ((10 * digit_val a + digit_val b) / 10) with (digit_val a)
    by (apply Z.div_unique with (digit_val b); lia).
  replace ((10 * digit_val a + digit_val b) mod 10) with (digit_val b)
    by (apply Z.mod_unique with (digit_val a); lia).
  by rewrite Ea, Eb.
Qed.

Lemma three_digits_val (a b c : ascii) :
  is_digit a = true -> is_digit b = true -> is_digit c = true ->
  three_digits (100 * digit_val a + 10 * digit_val b + digit_val c) = [a; b; c].
Proof.
  intros Ha Hb Hc.
  destruct (is_digit_val a Ha) as [Ba Ea], (is_digit_val b Hb) as [Bb Eb],
    (is_digit_val c Hc) as [Bc Ec].
  unfold three_digits.
  replace ((100 * digit_val a + 10 * digit_val b + digit_val c) / 100) with (digit_val a)
    by (apply Z.div_unique with (10 * digit_val b + digit_val c); lia).
  replace ((100 * digit_val a + 10 * digit_val b + digit_val c) / 10)
    with (10 * digit_val a + digit_val b)
    by (apply Z.div_unique with (digit_val c); lia).
  replace ((10 * digit_val a + digit_val b) mod 10) with (digit_val b)
    by (apply Z.mod_unique with (digit_val a); lia).
  replace ((100 * digit_val a + 10 * digit_val b + digit_val c) mod 10) with (digit_val c)
    by (apply Z.mod_unique with (10 * digit_val a + digit_val b); lia).
  by rewrite Ea, Eb, Ec.
Qed.

(** The fields of a time below one day, in milliseconds. *)
Lemma time_fields (hour minute second ms : Z) :
  0 <= hour <= 23 -> 0 <= minute <= 59 -> 0 <= second <= 59 -> 0 <= ms <= 999 ->
  let t := ((hour * 60 + minute) * 60 + second) * us_per_s + ms * us_per_ms in
  0 <= t < us_per_day /\
  t / us_per_s / 60 / 60 = hour /\
  (t / us_per_s / 60) mod 60 = minute /\
  (t / us_per_s) mod 60 * us_per_s + t mod us_per_s = (second * 1000 + ms) * 1000.
Proof.
  intros Hh Hm Hs Hf t. unfold us_per_day, us_per_s, us_per_ms in *.
  assert (t / 1000000 = (hour * 60 + minute) * 60 + second) as E1.
  { symmetry. apply Z.div_unique with (ms * 1000); subst t; lia. }
  assert (t mod 1000000 = ms * 1000) as E2.
  { symmetry. apply Z.mod_unique with ((hour * 60 + minute) * 60 + second); subst t; lia. }
  assert (((hour * 60 + minute) * 60 + second) / 60 = hour * 60 + minute) as E3.
  { symmetry. apply Z.div_unique with second; lia. }
  assert (((hour * 60 + minute) * 60 + second) mod 60 = second) as E4.
  { symmetry. apply Z.mod_unique with (hour * 60 + minute); lia. }
  assert ((hour * 60 + minute) / 60 = hour) as E5.
  { symmetry. apply Z.div_unique with minute; lia. }
  assert ((hour * 60 + minute) mod 60 = minute) as E6.
  { symmetry. apply Z.mod_unique with hour; lia. }
  rewrite E1, E2, E3, E4, E5, E6. repeat split; subst t; lia.
Qed.

Lemma timestamp_chars (st : str) :
  Forall2 (fun k c => in_class k c = true) timestamp_pattern st ->
  exists h1 h2 m1 m2 s1 s2 f1 f2 f3,
    st = [h1; h2; ":"%char; m1; m2; ":"%char; s1; s2; "."%char; f1; f2; f3] /\
    Forall (fun c => is_digit c = true) [h1; h2; m1; m2; s1; s2; f1; f2; f3].
Proof.
  unfold timestamp_pattern. intros H.
  repeat match goal with
  | H : Forall2 _ (_ :: _) _ |- _ =>
      let H1 := fresh "K" in
      apply Forall2_cons_inv_l in H; destruct H as (? & ? & H1 & H & ->); simpl in H1
  | H : Forall2 _ [] _ |- _ => apply Forall2_nil_inv_l in H; subst
  | H : bool_decide _ = true |- _ => apply bool_decide_eq_true_1 in H; subst
  end.
  do 9 eexists. split; [reflexivity|]. repeat constructor; assumption.
Qed.

Lemma format_parse_time (round_ms : Z -> Z) (st : str) (t : timedelta) :
  exact_on_ms round_ms ->
  Forall2 (fun k c => in_class k c = true) timestamp_pattern st ->
  parse_time st = Ok t ->
  format_time round_ms t = Ok st.
Proof.
  intros Hr Hst Hp.
  destruct (timestamp_chars st Hst) as (h1 & h2 & m1 & m2 & s1 & s2 & f1 & f2 & f3 & -> & Hd).
  repeat match goal with
  | H : Forall _ (_ :: _) |- _ => apply Forall_cons in H; destruct H as [? H]
  end.
  unfold parse_time in Hp.
  set (hour := 10 * digit_val h1 + digit_val h2) in *.
  set (minute := 10 * digit_val m1 + digit_val m2) in *.
  set (second := 10 * digit_val s1 + digit_val s2) in *.
  set (ms := 100 * digit_val f1 + 10 * digit_val f2 + digit_val f3) in *.
  destruct ((hour <=? 23) && (minute <=? 59) && (second <=? 59)) eqn:E; [|discriminate].
  injection Hp as <-.
  apply andb_true_iff in E. destruct E as [E E3].
  apply andb_true_iff in E. destruct E as [E1 E2].
  apply Z.leb_le in E1, E2, E3.
  assert (0 <= hour /\ 0 <= minute /\ 0 <= second /\ 0 <= ms <= 999) as (B1 & B2 & B3 & B4).
  { subst hour minute second ms.
    repeat match goal with
    | H : is_digit ?c = true |- _ => apply is_digit_val in H; destruct H as [? _]
    end. lia. }
  destruct (time_fields hour minute second ms) as (Ht & F1 & F2 & F3); try lia.
  set (t := ((hour * 60 + minute) * 60 + second) * us_per_s + ms * us_per_ms) in *.
  unfold format_time.
  assert ((0 <=? t) && (t <? us_per_day) = true) as ->.
  { apply andb_true_iff. split; [apply Z.leb_le | apply Z.ltb_lt]; lia. }
  cbv zeta. rewrite F1, F2, F3, Hr by lia.
  replace ((second * 1000 + ms) / 1000) with second
    by (apply Z.div_unique with ms; lia).
  replace ((second * 1000 + ms) mod 1000) with ms
    by (apply Z.mod_unique with second; lia).
  subst hour minute second ms.
  rewrite !two_digits_val, three_digits_val by assumption. reflexivity.
Qed.

(** ** Line numbers *)

Lemma digit_char_is_digit (d : Z) : 0 <= d <= 9 -> is_digit (digit_char d) = true.
Proof.
  intros H. unfold is_digit, digit_char.
  rewrite nat_ascii_embedding by lia.
  apply andb_true_iff. split; apply Nat.leb_le; lia.
Qed.

Lemma digit_char_is_digit19 (d : Z) : 1 <= d <= 9 -> is_digit19 (digit_char d) = true.
Proof.
  intros H. unfold is_digit19, digit_char.
  rewrite nat_ascii_embedding by lia.
  apply andb_true_iff. split; apply Nat.leb_le; lia.
Qed.

Lemma digits_fuel_shape (fuel : nat) (n : Z) :
  0 < n < Z.of_nat fuel ->
  exists c ds, digits_fuel fuel n = c :: ds /\
    is_digit19 c = true /\ forallb is_digit ds = true.
Proof.
  revert n. induction fuel as [|fuel IH]; intros n Hn; [lia|].
  simpl. destruct (n <? 10) eqn:E.
  - apply Z.ltb_lt in E. exists (digit_char n), [].
    split; [reflexivity|]. split; [apply digit_char_is_digit19; lia | reflexivity].
  - apply Z.ltb_ge in E.
    destruct (IH (n / 10)) as (c & ds & -> & Hc & Hds).
    { split; [apply Z.div_str_pos; lia|].
      assert (n / 10 < n) by (apply Z.div_lt; lia). lia. }
    exists c, (ds ++ [digit_char (n mod 10)]).
    split; [reflexivity|]. split; [exact Hc|].
    rewrite forallb_app, Hds. simpl.
    rewrite digit_char_is_digit; [reflexivity|].
    pose proof (Z.mod_pos_bound n 10). lia.
Qed.

Lemma str_of_int_shape (n : Z) :
  0 < n ->
  exists c ds, str_of_int n = c :: ds /\
    is_digit19 c = true /\ forallb is_digit ds = true.
Proof. intros Hn. apply digits_fuel_shape. lia. Qed.

(** ** Blocks between separators *)

Lemma block_ok_nl_free (s : str) :
  s <> [] -> existsb is_nl s = false -> block_ok s = true.
Proof.
  induction s as [|c s IH]; intros Hne Hs; [congruence|].
  simpl in Hs. apply orb_false_iff in Hs. destruct Hs as [Hc Hs].
  simpl. destruct s as [|d s]; [by rewrite Hc|].
  rewrite Hc. simpl. apply IH; [discriminate | exact Hs].
Qed.

Lemma block_ok_app (s b : str) (c : ascii) :
  s <> [] -> existsb is_nl s = false -> is_nl c = false -> block_ok (c :: b) = true ->
  block_ok (s ++ nl :: c :: b) = true.
Proof.
  intros Hne Hs Hc Hb. induction s as [|x s IH]; [congruence|].
  simpl in Hs. apply orb_false_iff in Hs. destruct Hs as [Hx Hs].
  destruct s as [|y s].
  - change ([x] ++ nl :: c :: b) with (x :: nl :: c :: b).
    change (block_ok (x :: nl :: c :: b))
      with (negb (is_nl x && is_nl nl) && (negb (is_nl nl && is_nl c) && block_ok (c :: b))).
    by rewrite Hx, Hc, Hb.
  - change (block_ok ((x :: y :: s) ++ nl :: c :: b))
      with (negb (is_nl x && is_nl y) && block_ok ((y :: s) ++ nl :: c :: b)).
    rewrite Hx. simpl. apply IH; [discriminate | exact Hs].
Qed.

Lemma block_ok_last (b : str) : block_ok b = true -> exists c, last b = Some c /\ is_nl c = false.
Proof.
  induction b as [|c b IH]; [discriminate|].
  destruct b as [|d b].
  - simpl. intros H. exists c. split; [reflexivity|]. by destruct (is_nl c).
  - change (block_ok (c :: d :: b)) with (negb (is_nl c && is_nl d) && block_ok (d :: b)).
    intros H. apply andb_true_iff in H. destruct H as [_ H].
    rewrite last_cons_cons. by apply IH.
Qed.

Lemma split_blank_cons (c d : ascii) (s : str) :
  split_blank (c :: d :: s) =
  if is_nl c && is_nl d then [] :: split_blank s else cons_head c (split_blank (d :: s)).
Proof. reflexivity. Qed.

Lemma split_blank_block (b : str) : block_ok b = true -> split_blank b = [b].
Proof.
  induction b as [|c b IH]; [discriminate|].
  destruct b as [|d b]; [reflexivity|].
  change (block_ok (c :: d :: b)) with (negb (is_nl c && is_nl d) && block_ok (d :: b)).
  intros H. apply andb_true_iff in H. destruct H as [H1 H2].
  rewrite split_blank_cons. apply negb_true_iff in H1. rewrite H1.
  by rewrite (IH H2).
Qed.

Lemma split_blank_app (b rest : str) :
  block_ok b = true -> split_blank (b ++ nl :: nl :: rest) = b :: split_blank rest.
Proof.
  induction b as [|c b IH]; [discriminate|].
  destruct b as [|d b].
  - simpl block_ok. intros H. apply negb_true_iff in H.
    change ([c] ++ nl :: nl :: rest) with (c :: nl :: nl :: rest).
    rewrite split_blank_cons, H. simpl andb. cbv iota.
    rewrite split_blank_cons. reflexivity.
  - change (block_ok (c :: d :: b)) with (negb (is_nl c && is_nl d) && block_ok (d :: b)).
    intros H. apply andb_true_iff in H. destruct H as [H1 H2].
    change ((c :: d :: b) ++ nl :: nl :: rest) with (c :: d :: (b ++ nl :: nl :: rest)).
    rewrite split_blank_cons. apply negb_true_iff in H1. rewrite H1.
    change (d :: b ++ nl :: nl :: rest) with ((d :: b) ++ nl :: nl :: rest).
    by rewrite (IH H2).
Qed.

Lemma split_blank_join (blocks : list str) :
  blocks <> [] -> Forall (fun b => block_ok b = true) blocks ->
  split_blank (join [nl; nl] blocks) = blocks.
Proof.
  intros Hne H. induction H as [|b blocks Hb Hbs IH]; [congruence|].
  destruct blocks as [|b' blocks].
  - simpl. by apply split_blank_block.
  - change (join [nl; nl] (b :: b' :: blocks))
      with (b ++ nl :: nl :: join [nl; nl] (b' :: blocks)).
    rewrite split_blank_app by exact Hb. f_equal. apply IH. discriminate.
Qed.

Lemma split_blank_nonempty (s : str) : split_blank s <> [].
Proof.
  destruct s as [|c [|d s]]; try discriminate.
  rewrite split_blank_cons. destruct (is_nl c && is_nl d); [discriminate|].
  destruct (split_blank (d :: s)); discriminate.
Qed.

Lemma join_cons_head (sep : str) (c : ascii) (l : list str) :
  l <> [] -> join sep (cons_head c l) = c :: join sep l.
Proof. destruct l as [|h [|h' t]]; [congruence | reflexivity | reflexivity]. Qed.

Lemma join_split_blank_le (n : nat) (s : str) :
  (length s <= n)%nat -> join [nl; nl] (split_blank s) = s.
Proof.
  revert s. induction n as [|n IH]; intros s Hs.
  - destruct s; [reflexivity | simpl in Hs; lia].
  - destruct s as [|c [|d s]]; [reflexivity | reflexivity |].
    rewrite split_blank_cons. destruct (is_nl c && is_nl d) eqn:E.
    + apply andb_true_iff in E. destruct E as [Ec Ed].
      apply bool_decide_eq_true_1 in Ec, Ed. subst c d.
      pose proof (split_blank_nonempty s) as Hne.
      specialize (IH s). destruct (split_blank s) as [|h t]; [congruence|].
      change (join [nl; nl] ([] :: h :: t)) with (nl :: nl :: join [nl; nl] (h :: t)).
      rewrite IH; [reflexivity | simpl in Hs; lia].
    + rewrite join_cons_head by apply split_blank_nonempty.
      rewrite IH; [reflexivity | simpl in Hs |- *; lia].
Qed.

Lemma join_split_blank (s : str) : join [nl; nl] (split_blank s) = s.
Proof. by apply (join_split_blank_le (length s)). Qed.

Lemma last_join (sep : str) (blocks : list str) (b : str) :
  last blocks = Some b -> b <> [] -> last (join sep blocks) = last b.
Proof.
  intros Hl Hb. induction blocks as [|x blocks IH]; [discriminate|].
  destruct blocks as [|y blocks].
  - simpl in *. congruence.
  - rewrite last_cons_cons in Hl. specialize (IH Hl).
    change (join sep (x :: y :: blocks)) with (x ++ sep ++ join sep (y :: blocks)).
    rewrite !last_app, IH.
    destruct (last b) eqn:E; [reflexivity|].
    apply last_None in E. congruence.
Qed.

Lemma block_ok_app_head (s b : str) :
  s <> [] -> existsb is_nl s = false -> block_ok b = true ->
  (forall c, head b = Some c -> is_nl c = false) ->
  block_ok (s ++ nl :: b) = true.
Proof.
  intros Hne Hs Hb Hh. destruct b as [|c b]; [discriminate|].
  apply block_ok_app; try assumption. by apply Hh.
Qed.

Lemma head_nl_free (s r : str) (c : ascii) :
  s <> [] -> existsb is_nl s = false -> head (s ++ r) = Some c -> is_nl c = false.
Proof.
  intros Hne Hs Hc. destruct s as [|x s]; [congruence|].
  simpl in *. apply orb_false_iff in Hs. destruct Hs as [Hx _]. congruence.
Qed.

Lemma match_nl_free (p : list char_class) (m : str) :
  Forall2 (fun k c => in_class k c = true) p m ->
  Forall (fun k => k <> Char nl) p ->
  existsb is_nl m = false.
Proof.
  induction 1 as [|k c p m Hk _ IH]; intros Hp; [reflexivity|].
  apply Forall_cons in Hp. destruct Hp as [Hk' Hp]. simpl. rewrite (IH Hp).
  destruct k as [|c']; simpl in Hk.
  - by rewrite (is_digit_not_nl _ Hk).
  - apply bool_decide_eq_true_1 in Hk. subst c'.
    unfold is_nl. rewrite bool_decide_eq_false_2; [reflexivity|]. congruence.
Qed.

Lemma timestamp_nl_free (st : str) :
  Forall2 (fun k c => in_class k c = true) timestamp_pattern st ->
  existsb is_nl st = false /\ st <> [].
Proof.
  intros H. split.
  - apply (match_nl_free _ _ H). unfold timestamp_pattern.
    repeat constructor; discriminate.
  - inversion H. discriminate.
Qed.

Lemma last_app_nonempty {A : Type} (x t : list A) : t <> [] -> last (x ++ t) = last t.
Proof.
  intros Ht. rewrite last_app. destruct (last t) eqn:E; [reflexivity|].
  apply last_None in E. congruence.
Qed.

(** ** strip *)

Lemma lstrip_head (s : str) (c : ascii) : head (lstrip s) = Some c -> isspace c = false.
Proof.
  induction s as [|x s IH]; simpl; [discriminate|].
  destruct (isspace x) eqn:E; [exact IH|]. simpl. congruence.
Qed.

Lemma lstrip_id (s : str) :
  (forall c, head s = Some c -> isspace c = false) -> lstrip s = s.
Proof. destruct s as [|x s]; [reflexivity|]. intros H. simpl. by rewrite (H x). Qed.

Lemma last_rev (s : str) : last (rev s) = head s.
Proof. destruct s as [|x s]; [reflexivity|]. simpl. apply last_snoc. Qed.

Lemma head_rev (s : str) : head (rev s) = last s.
Proof. rewrite <- (rev_involutive s) at 2. by rewrite last_rev. Qed.

Lemma strip_last (s : str) (c : ascii) : last (strip s) = Some c -> isspace c = false.
Proof. unfold strip, rstrip. rewrite last_rev. apply lstrip_head. Qed.

Lemma strip_id (s : str) :
  (forall c, head s = Some c -> isspace c = false) ->
  (forall c, last s = Some c -> isspace c = false) ->
  strip s = s.
Proof.
  intros Hh Hl. unfold strip, rstrip. rewrite (lstrip_id s Hh).
  rewrite lstrip_id; [apply rev_involutive|].
  intros c. rewrite head_rev. apply Hl.
Qed.

Lemma is_digit19_not_space (c : ascii) : is_digit19 c = true -> isspace c = false.
Proof.
  unfold is_digit19, isspace. intros H.
  apply andb_true_iff in H. destruct H as [H1 H2]. apply Nat.leb_le in H1, H2.
  repeat (apply orb_false_iff; split);
    try (apply andb_false_iff; right; apply Nat.leb_gt; lia);
    apply Nat.eqb_neq; lia.
Qed.

(** ** Rendering and parsing back *)

Section RoundTrip.

Variable round_ms : Z -> Z.
Hypothesis round_ms_exact : exact_on_ms round_ms.

Lemma parse_line_render (blk : str) (l : TranscriptLine) :
  parse_line blk = Ok l ->
  exists body,
    line_str round_ms l = Ok body /\
    text l <> [] /\
    last blk = last (text l) /\
    forall (c : ascii) (ds : str),
      is_digit19 c = true -> forallb is_digit ds = true ->
      parse_line ((c :: ds) ++ nl :: body) = Ok l /\
      block_ok ((c :: ds) ++ nl :: body) = true /\
      last ((c :: ds) ++ nl :: body) = last (text l).
Proof.
  unfold parse_line at 1, match_line. intros H.
  destruct (match_line_num blk) as [body|] eqn:E0; [|discriminate].
  destruct (match_body body) as [[[[st en] sp] tx]|] eqn:E1; [|discriminate].
  bind_inv H. bind_inv H. injection H as <-.
  rename a into ts, a0 into te.
  apply match_line_num_inv in E0. destruct E0 as (num & -> & _ & _).
  pose proof (match_body_inv _ _ _ _ _ E1) as (Hbody & Fst & Fen & Hnl & Hg).
  destruct (greedy_split_app _ _ _ Hg) as (_ & Hsp & Htx).
  destruct (timestamp_nl_free _ Fst) as [Nst Est].
  destruct (timestamp_nl_free _ Fen) as [Nen Een].
  assert (forall pre : str, last (pre ++ nl :: body) = last tx) as Hlast.
  { intros pre. rewrite Hbody.
    replace (pre ++ nl :: st ++ lit " --> " ++ en ++ nl :: sp ++ lit ": " ++ tx)
      with ((pre ++ nl :: st ++ lit " --> " ++ en ++ nl :: sp ++ lit ": ") ++ tx)
      by (list_norm; reflexivity).
    by apply last_app_nonempty. }
  exists body. simpl text. split; [|split; [exact Htx | split; [apply Hlast|]]].
  - unfold line_str. simpl.
    rewrite (format_parse_time _ _ _ round_ms_exact Fst Ha).
    rewrite (format_parse_time _ _ _ round_ms_exact Fen Ha0).
    simpl bind. rewrite Hbody. reflexivity.
  - intros c ds Hc Hds. split; [|split; [|apply Hlast]].
    + unfold parse_line, match_line.
      rewrite (match_line_num_complete c ds body Hc Hds), E1, Ha, Ha0.
      reflexivity.
    + apply block_ok_app_head.
      * discriminate.
      * simpl. rewrite (is_digit_not_nl c (is_digit19_is_digit c Hc)). simpl.
        clear -Hds. induction ds as [|d ds IH]; [reflexivity|].
        simpl in *. apply andb_true_iff in Hds. destruct Hds as [Hd Hds].
        by rewrite (is_digit_not_nl d Hd), (IH Hds).
      * rewrite Hbody.
        replace (st ++ lit " --> " ++ en ++ nl :: sp ++ lit ": " ++ tx)
          with ((st ++ lit " --> " ++ en) ++ nl :: (sp ++ lit ": " ++ tx))
          by (list_norm; reflexivity).
        apply block_ok_app_head.
        -- destruct st; [congruence | discriminate].
        -- rewrite !existsb_app, Nst, Nen. reflexivity.
        -- apply block_ok_nl_free; [|exact Hnl]. destruct sp; [congruence | discriminate].
        -- intros x Hx. apply (head_nl_free (sp ++ lit ": " ++ tx) [] x);
             [destruct sp; [congruence | discriminate] | exact Hnl | by rewrite app_nil_r].
      * intros x Hx. rewrite Hbody in Hx. by apply (head_nl_free _ _ _ Est Nst Hx).
Qed.

End RoundTrip.

Lemma Forall2_last_r {A B : Type} (P : A -> B -> Prop) (l : list A) (k : list B) (y : B) :
  Forall2 P l k -> last k = Some y -> exists x, last l = Some x /\ P x y.
Proof.
  induction 1 as [|a b l k Hab Hlk IH]; [discriminate|].
  destruct Hlk as [|a' b' l k Hab' Hlk].
  - simpl. intros [= <-]. eauto.
  - rewrite !last_cons_cons. exact IH.
Qed.

Lemma head_join (sep : str) (c : ascii) (r : str) (blocks : list str) :
  head (join sep ((c :: r) :: blocks)) = Some c.
Proof. destruct blocks; reflexivity. Qed.

Lemma str_blocks_spec (round_ms : Z -> Z) (blocks : list str) (ls : list TranscriptLine) :
  exact_on_ms round_ms ->
  Forall2 (fun b l => parse_line b = Ok l) blocks ls ->
  forall i : nat, exists blocks',
    str_blocks round_ms i ls = Ok blocks' /\ Forall2 rendered blocks' ls.
Proof.
  intros Hr H. induction H as [|b l blocks ls Hb _ IH]; intros i.
  - exists []. split; [reflexivity | constructor].
  - destruct (parse_line_render round_ms Hr b l Hb) as (body & Hbody & _ & _ & Hnum).
    destruct (IH (S i)) as (blocks' & Hblocks' & HF).
    destruct (str_of_int_shape (Z.of_nat i + 1)) as (c & ds & Hi & Hc & Hds); [lia|].
    destruct (Hnum c ds Hc Hds) as (Hp & Hok & Hlast).
    exists (((c :: ds) ++ nl :: body) :: blocks'). split.
    + simpl str_blocks. rewrite Hbody. simpl bind. rewrite Hblocks'. simpl bind.
      by rewrite Hi.
    + constructor; [|exact HF]. repeat split; try assumption. by exists c, (ds ++ nl :: body).
Qed.

(** ** Serialising and parsing back *)

(** C2, as stated, fails: a file that holds the header alone parses to
    the empty transcript, whose serialisation is the empty string, which
    does not parse. *)
Lemma round_trip_fails_on_header_only :
  parse_transcript (lit "WEBVTT") = Ok Transcript_init /\
  (forall round_ms : Z -> Z, transcript_str round_ms Transcript_init = Ok []) /\
  parse_transcript [] = Raise ValueError.
Proof. repeat split; vm_compute; reflexivity. Qed.

(** C2, amended. For every input that parses to a transcript with at
    least one line, the transcript serialises, and the serialisation
    parses to the same transcript: the same four fields on every line
    (and the same aggregates), equal under [__eq__]. The rounding of the
    float formatting is only assumed exact on whole milliseconds. *)
Theorem parse_str_round_trip (round_ms : Z -> Z) (contents : str) (T : Transcript) :
  exact_on_ms round_ms ->
  parse_transcript contents = Ok T ->
  lines T <> [] ->
  exists (s : str) (T' : Transcript),
    transcript_str round_ms T = Ok s /\
    parse_transcript s = Ok T' /\
    T' = T /\
    transcript_eq T' T = true.
Proof.
  intros Hr H Hne. unfold parse_transcript in H.
  destruct (split_blank (strip contents)) as [|first rest] eqn:Hsplit; [discriminate|].
  set (blocks := if bool_decide (first = lit "WEBVTT") then rest else first :: rest) in H.
  apply parse_loop_build in H. destruct H as (ls & HF & ->).
  fold (build ls) in *. rewrite lines_build in Hne.
  (* the last block of the input and the last line *)
  destruct (last ls) as [l_last|] eqn:Hl_last; [|by apply last_None in Hl_last].
  destruct (Forall2_last_r _ _ _ _ HF Hl_last) as (b_last & Hb_last & Hparse_last).
  destruct (parse_line_render round_ms Hr _ _ Hparse_last) as (_ & _ & Htx & Hlast_b & _).
  destruct (last (text l_last)) as [d|] eqn:Hd; [|by apply last_None in Hd].
  assert (last (first :: rest) = Some b_last) as Hlast0.
  { subst blocks. destruct (bool_decide (first = lit "WEBVTT")); [|exact Hb_last].
    destruct rest; [discriminate | by rewrite last_cons_cons]. }
  assert (isspace d = false) as Hspace.
  { apply (strip_last contents). rewrite <- (join_split_blank (strip contents)), Hsplit.
    rewrite (last_join _ _ b_last Hlast0); [exact Hlast_b|].
    intros ->. discriminate. }
  (* the serialisation *)
  destruct (str_blocks_spec round_ms blocks ls Hr HF 0) as (blocks' & Hstr & HF').
  destruct (Forall2_last_r _ _ _ _ HF' Hl_last) as (b_last' & Hb_last' & Hrend_last).
  destruct Hrend_last as (_ & _ & Hlast_b' & _). rewrite Hd in Hlast_b'.
  destruct HF' as [|b1 l1 blocks' ls' Hrend1 HF']; [congruence|].
  pose proof Hrend1 as (_ & _ & _ & c & r & -> & Hc).
  exists (join [nl; nl] ((c :: r) :: blocks')), (build (l1 :: ls')).
  split; [|split; [|split; [reflexivity | by apply transcript_eq_lines]]].
  - unfold transcript_str. rewrite lines_build, Hstr. reflexivity.
  - unfold parse_transcript. rewrite strip_id.
    + rewrite split_blank_join.
      * rewrite bool_decide_eq_false_2.
        -- apply parse_loop_complete. constructor; [apply Hrend1|].
           eapply Forall2_impl; [exact HF'|]. by intros b l (Hp & _).
        -- intros [= -> _]. vm_compute in Hc. discriminate.
      * discriminate.
      * constructor; [apply Hrend1|].
        clear -HF'. induction HF' as [|b l bs ls' Hb _ IH]; constructor;
          [apply Hb | exact IH].
    + intros x. rewrite head_join. intros [= <-]. by apply is_digit19_not_space.
    + intros x. rewrite (last_join _ _ b_last' Hb_last').
      * rewrite Hlast_b'. by intros [= <-].
      * intros ->. discriminate.
Qed.

Lemma parse_str_round_trip_witness :
  exact_on_ms round_half_up /\
  exists (s : str) (T' : Transcript),
    transcript_str round_half_up ex_two_lines = Ok s /\
    parse_transcript s = Ok T' /\
    T' = ex_two_lines.
Proof.
  assert (exact_on_ms round_half_up) as Hr.
  { intros k Hk. unfold round_half_up. symmetry.
    apply Z.div_unique with 500; lia. }
  split; [exact Hr|].
  destruct (parse_str_round_trip round_half_up ex_contents ex_two_lines Hr)
    as (s & T' & H1 & H2 & H3 & _).
  - vm_compute. reflexivity.
  - vm_compute. discriminate.
  - exists s, T'. split; [exact H1|]. split; [exact H2 | exact H3].
Defined.

(** * Further properties *)

(** ** Equality *)

Lemma line_eq_true (a b : TranscriptLine) : line_eq a b = true <-> a = b.
Proof.
  split; [|intros ->; apply line_eq_refl].
  unfold line_eq, get_start_time, get_end_time, get_speaker, get_text. intros H.
  apply andb_true_iff in H. destruct H as [H H4].
  apply andb_true_iff in H. destruct H as [H H3].
  apply andb_true_iff in H. destruct H as [H1 H2].
  apply Z.eqb_eq in H1, H2. apply bool_decide_eq_true_1 in H3, H4.
  destruct a, b. simpl in *. by subst.
Qed.

Lemma constructed_build (T : Transcript) : constructed T -> T = build (lines T).
Proof.
  assert (forall ls, T = build ls -> T = build (lines T)) as Hb.
  { intros ls ->. by rewrite lines_build. }
  destruct 1 as [contents T H | T m | T T' names H | T T' p H].
  - unfold parse_transcript in H.
    destruct (split_blank (strip contents)) as [|first rest]; [discriminate|].
    apply parse_loop_build in H. destruct H as (ls & _ & HT). by apply (Hb ls).
  - apply (Hb (map (remap m) (lines T))). apply map_speakers_build.
  - apply alternate_loop_spec in H. destruct H as (ls & HT & _). by apply (Hb ls).
  - apply merge_spec in H. destruct H as (first & rest & out & acc' & _ & HT & _).
    by apply (Hb (out ++ [acc'])).
Qed.

(** X1. [Transcript.__eq__] holds exactly when the two transcripts have
    the same lines, field for field; and two transcripts that
    constructing operations returned are then the same in every
    aggregate too. *)
Theorem transcript_eq_true (T T' : Transcript) :
  (transcript_eq T T' = true <-> lines T = lines T') /\
  (constructed T -> constructed T' -> transcript_eq T T' = true -> T = T').
Proof.
  assert (transcript_eq T T' = true -> lines T = lines T') as Hl.
  { unfold transcript_eq, num_lines, get_lines. intros H.
    apply andb_true_iff in H. destruct H as [Hn H]. apply Nat.eqb_eq in Hn.
    rewrite forallb_forall in H. apply list_eq. intros i.
    destruct (lines T !! i) as [a|] eqn:Ea.
    - assert (i < length (lines T))%nat as Hi by (by apply lookup_lt_Some in Ea).
      specialize (H i). rewrite Ea in H.
      destruct (lines T' !! i) as [b|]; [|by discriminate H; apply in_seq; lia].
      f_equal. apply line_eq_true, H, in_seq. lia.
    - apply lookup_ge_None in Ea. symmetry. apply lookup_ge_None. lia. }
  split; [split; [exact Hl | apply transcript_eq_lines]|].
  intros HT HT' H. rewrite (constructed_build T HT), (constructed_build T' HT').
  by rewrite (Hl H).
Qed.

Lemma transcript_eq_true_witness :
  transcript_eq ex_two_lines (build [ex_hello; ex_world]) = true /\
  ex_two_lines = build [ex_hello; ex_world].
Proof.
  assert (forall T, T = ex_two_lines -> constructed T) as Hc.
  { intros T ->. apply (constructed_merge ex_two_lines ex_two_lines (fun _ _ => Ok false)).
    vm_compute. reflexivity. }
  assert (transcript_eq ex_two_lines (build [ex_hello; ex_world]) = true) as He
    by (vm_compute; reflexivity).
  split; [exact He|].
  apply (proj2 (transcript_eq_true ex_two_lines (build [ex_hello; ex_world])));
    [by apply Hc | by apply Hc | exact He].
Defined.

(** ** The aggregates of a constructed transcript *)

Lemma gaps_snoc (ls : list TranscriptLine) (l : TranscriptLine) :
  gaps (ls ++ [l]) =
  gaps ls ++ match last ls with Some prev => [line_sub l prev] | None => [] end.
Proof.
  induction ls as [|a ls IH]; [reflexivity|].
  destruct ls as [|b ls]; [reflexivity|].
  change (gaps ((a :: b :: ls) ++ [l])) with (line_sub b a :: gaps ((b :: ls) ++ [l])).
  rewrite IH, last_cons_cons. reflexivity.
Qed.

Lemma silence_intervals_build (ls : list TranscriptLine) :
  silence_intervals (build ls) = gaps ls.
Proof.
  induction ls as [|l ls IH] using rev_ind; [reflexivity|].
  rewrite <- build_snoc, gaps_snoc, <- IH. unfold add_item.
  rewrite lines_build. destruct (last ls); simpl; [reflexivity | by rewrite app_nil_r].
Qed.

Lemma gaps_lookup (ls : list TranscriptLine) (i : nat) (a b : TranscriptLine) :
  ls !! i = Some a -> ls !! S i = Some b -> gaps ls !! i = Some (line_sub b a).
Proof.
  revert i. induction ls as [|x ls IH]; intros i Ha Hb; [discriminate|].
  destruct ls as [|y ls]; [discriminate|].
  destruct i as [|i].
  - simpl in *. congruence.
  - change (gaps (x :: y :: ls) !! S i) with (gaps (y :: ls) !! i).
    apply IH; assumption.
Qed.

(** X2. In a transcript that a constructing operation returned, the i-th
    silence interval is the start of line i+1 minus the end of line i. *)
Theorem silence_intervals_are_gaps (T : Transcript) (i : nat) (a b : TranscriptLine) :
  constructed T ->
  lines T !! i = Some a -> lines T !! S i = Some b ->
  silence_intervals T !! i = Some (start_time b - end_time a).
Proof.
  intros HT Ha Hb. rewrite (constructed_build T HT), silence_intervals_build.
  by apply gaps_lookup.
Qed.

Lemma silence_intervals_are_gaps_witness :
  silence_intervals ex_three_lines !! 1%nat = Some (5000000 - 4000000).
Proof.
  apply (silence_intervals_are_gaps ex_three_lines 1 ex_world ex_bye);
    [|reflexivity | reflexivity].
  apply (constructed_merge ex_three_lines ex_three_lines (fun _ _ => Ok false)).
  vm_compute. reflexivity.
Defined.

Lemma telescope (a : TranscriptLine) (rest : list TranscriptLine) (z : TranscriptLine) :
  last (a :: rest) = Some z ->
  sum_Z (map get_duration (a :: rest)) + sum_Z (gaps (a :: rest))
  = end_time z - start_time a.
Proof.
  revert a. induction rest as [|b rest IH]; intros a Hz.
  - injection Hz as <-. unfold sum_Z, get_duration. simpl. lia.
  - rewrite last_cons_cons in Hz. specialize (IH b Hz).
    change (gaps (a :: b :: rest)) with (line_sub b a :: gaps (b :: rest)).
    change (map get_duration (a :: b :: rest))
      with (get_duration a :: map get_duration (b :: rest)).
    unfold sum_Z in *. simpl foldr in *.
    unfold line_sub, get_duration, get_start_time, get_end_time in *. lia.
Qed.

Lemma build_span (ls : list TranscriptLine) (a z : TranscriptLine) :
  head ls = Some a -> last ls = Some z ->
  total_speaking_time (build ls) + total_silence (build ls) = end_time z - start_time a.
Proof.
  intros Ha Hz. destruct (build_inv ls) as [_ Hs Hd _].
  rewrite Hs, Hd, silence_intervals_build, lines_build.
  destruct ls as [|a' rest]; [discriminate|]. injection Ha as ->.
  by apply telescope.
Qed.

(** X3. In a transcript that a constructing operation returned, speaking
    time and silence add up to the span from the start of the first line
    to the end of the last one, so [total_time] is the start of the
    first line plus both. *)
Theorem speaking_and_silence_span (T : Transcript) (a z : TranscriptLine) :
  constructed T ->
  head (lines T) = Some a -> last (lines T) = Some z ->
  total_speaking_time T + total_silence T = end_time z - start_time a /\
  total_time T = Ok (start_time a + total_speaking_time T + total_silence T).
Proof.
  intros HT Ha Hz.
  assert (total_speaking_time T + total_silence T = end_time z - start_time a) as E.
  { rewrite (constructed_build T HT) at 1 2. by apply build_span. }
  split; [exact E|]. unfold total_time, get_end_time. rewrite Hz. f_equal. lia.
Qed.

Lemma speaking_and_silence_span_witness :
  total_speaking_time ex_three_lines + total_silence ex_three_lines = 6000000 - 0.
Proof.
  apply (speaking_and_silence_span ex_three_lines ex_hello ex_bye);
    [|reflexivity | reflexivity].
  apply (constructed_merge ex_three_lines ex_three_lines (fun _ _ => Ok false)).
  vm_compute. reflexivity.
Defined.

(** X4. [merge] keeps the sum of speaking time and silence, whatever the
    predicate: what it takes from the silence it adds to the speaking
    time. *)
Theorem merge_keeps_speaking_plus_silence (T T' : Transcript) (p : predicate) :
  constructed T ->
  merge T p = Ok T' ->
  total_speaking_time T' + total_silence T' = total_speaking_time T + total_silence T.
Proof.
  intros HT H. pose proof (merge_spec T T' p H)
    as (first & rest & out & acc' & Hl & -> & Hhd & Hlast).
  rewrite (constructed_build T HT) at 1 2. rewrite Hl.
  destruct (last (first :: rest)) as [z|] eqn:Hz; [|discriminate].
  rewrite (build_span (first :: rest) first z eq_refl Hz).
  destruct (head (out ++ [acc'])) as [a'|] eqn:Ha'; [|discriminate].
  rewrite (build_span (out ++ [acc']) a' acc' Ha' (last_snoc _ _)).
  simpl in Hhd, Hlast. congruence.
Qed.

Lemma merge_keeps_speaking_plus_silence_witness :
  exists T', merge ex_three_lines same_speaker = Ok T' /\
    total_speaking_time T' + total_silence T'
    = total_speaking_time ex_three_lines + total_silence ex_three_lines.
Proof.
  destruct (merge_total ex_three_lines same_speaker) as [T' HT'];
    [vm_compute; discriminate | apply same_speaker_total |].
  exists T'. split; [exact HT'|].
  apply (merge_keeps_speaking_plus_silence ex_three_lines T' same_speaker); [|exact HT'].
  apply (constructed_merge ex_three_lines ex_three_lines (fun _ _ => Ok false)).
  vm_compute. reflexivity.
Defined.

(** ** merge with particular predicates *)

Lemma merge_loop_false (rest : list TranscriptLine) (M : Transcript) (acc : TranscriptLine)
    (p : predicate) :
  (forall a b, In b rest -> p a b = Ok false) ->
  exists M' acc',
    merge_loop p M acc rest = Ok (M', acc') /\
    add_item M' acc' = foldl add_item M (acc :: rest).
Proof.
  revert M acc. induction rest as [|curr rest IH]; intros M acc Hp; simpl.
  - by exists M, acc.
  - rewrite (Hp acc curr) by (by left). simpl.
    destruct (IH (add_item M acc) curr) as (M' & acc' & H1 & H2).
    { intros a b Hb. apply Hp. by right. }
    exists M', acc'. split; [exact H1 | exact H2].
Qed.

(** X5. With a predicate that is always false, [merge] returns a
    transcript with the lines of the original, which is the original when
    a constructing operation returned it. *)
Theorem merge_never_merging (T : Transcript) :
  lines T <> [] ->
  exists T',
    merge T (fun _ _ => Ok false) = Ok T' /\
    lines T' = lines T /\
    (constructed T -> T' = T).
Proof.
  intros Hne. unfold merge. destruct (lines T) as [|first rest] eqn:Hl; [congruence|].
  destruct (merge_loop_false rest Transcript_init first (fun _ _ => Ok false))
    as (M' & acc' & H1 & H2); [reflexivity|].
  exists (build (first :: rest)). rewrite H1. simpl bind. rewrite H2.
  split; [reflexivity|]. split; [apply lines_build|].
  intros HT. rewrite (constructed_build T HT), Hl. reflexivity.
Qed.

Lemma merge_never_merging_witness :
  exists T', merge ex_three_lines (fun _ _ => Ok false) = Ok T' /\
             lines T' = lines ex_three_lines.
Proof.
  destruct (merge_never_merging ex_three_lines) as (T' & H1 & H2 & _);
    [vm_compute; discriminate|].
  exists T'. split; [exact H1 | exact H2].
Defined.

Lemma join_cons (sep x : str) (l : list str) :
  l <> [] -> join sep (x :: l) = x ++ sep ++ join sep l.
Proof. destruct l; [congruence | reflexivity]. Qed.

Lemma join_merged_head (sep x y : str) (l : list str) :
  join sep ((x ++ sep ++ y) :: l) = join sep (x :: y :: l).
Proof.
  destruct l as [|z l]; [reflexivity|].
  rewrite !join_cons by discriminate. by rewrite <- !app_assoc.
Qed.

Lemma foldl_line_add (rest : list TranscriptLine) (acc : TranscriptLine) :
  start_time (foldl line_add acc rest) = start_time acc /\
  Some (end_time (foldl line_add acc rest)) = end_time <$> last (acc :: rest) /\
  speaker (foldl line_add acc rest) = speaker acc /\
  text (foldl line_add acc rest) = join (lit " ") (map text (acc :: rest)).
Proof.
  revert acc. induction rest as [|curr rest IH]; intros acc.
  - by repeat split.
  - destruct (IH (line_add acc curr)) as (H1 & H2 & H3 & H4).
    simpl foldl. rewrite H1, H2, H3, H4. repeat split.
    + rewrite last_cons_cons. by apply last_cons_end.
    + exact (join_merged_head (lit " ") (text acc) (text curr) (map text rest)).
Qed.

Lemma merge_loop_true (rest : list TranscriptLine) (M : Transcript) (acc : TranscriptLine)
    (p : predicate) :
  (forall a b, In b rest -> speaker a = speaker acc -> p a b = Ok true) ->
  merge_loop p M acc rest = Ok (M, foldl line_add acc rest).
Proof.
  revert acc. induction rest as [|curr rest IH]; intros acc Hp; simpl; [reflexivity|].
  rewrite (Hp acc curr) by (by left || reflexivity). simpl.
  apply IH. intros a b Hb Ha. apply Hp; [by right | exact Ha].
Qed.

(** X6. With a predicate that is always true, [merge] returns exactly
    one line: the lines of the original added up left to right with
    [__add__]. It starts with the first line, ends with the last one,
    has the speaker of the first and the texts of all, in order, with
    one space between them. *)
Theorem merge_always_merging (T : Transcript) (first : TranscriptLine)
    (rest : list TranscriptLine) :
  lines T = first :: rest ->
  exists L,
    merge T (fun _ _ => Ok true) = Ok (build [L]) /\
    L = foldl line_add first rest /\
    start_time L = start_time first /\
    Some (end_time L) = end_time <$> last (lines T) /\
    speaker L = speaker first /\
    text L = join (lit " ") (map text (lines T)).
Proof.
  intros Hl. exists (foldl line_add first rest). unfold merge. rewrite Hl.
  rewrite (merge_loop_true rest Transcript_init first) by reflexivity.
  destruct (foldl_line_add rest first) as (H1 & H2 & H3 & H4).
  by repeat split.
Qed.

Lemma merge_always_merging_witness :
  exists L, merge ex_three_lines (fun _ _ => Ok true) = Ok (build [L]) /\
            text L = lit "hello world bye".
Proof.
  destruct (merge_always_merging ex_three_lines ex_hello [ex_world; ex_bye] eq_refl)
    as (L & H1 & _ & _ & _ & _ & H2).
  exists L. split; [exact H1 | exact H2].
Defined.

(** [TranscriptLine.__add__] is associative. *)
Lemma line_add_assoc (a b c : TranscriptLine) :
  line_add (line_add a b) c = line_add a (line_add b c).
Proof. unfold line_add. simpl. f_equal. by rewrite <- !app_assoc. Qed.

Lemma merge_loop_text (p : predicate) (rest : list TranscriptLine)
    (M M' : Transcript) (acc acc' : TranscriptLine) :
  merge_loop p M acc rest = Ok (M', acc') ->
  exists out,
    M' = foldl add_item M out /\
    join (lit " ") (map text (out ++ [acc'])) = join (lit " ") (map text (acc :: rest)) /\
    (length (out ++ [acc']) <= length (acc :: rest))%nat /\
    Forall (fun l => speaker l ∈ map speaker (acc :: rest)) (out ++ [acc']).
Proof.
  revert M acc. induction rest as [|curr rest IH]; intros M acc H; simpl in H.
  - injection H as <- <-. exists []. repeat split; [simpl; lia|].
    constructor; [|constructor]. simpl. by left.
  - bind_inv H. destruct a.
    + destruct (IH _ _ H) as (out & -> & Ht & Hn & Hs).
      exists out. split; [reflexivity|]. split; [|split].
      * rewrite Ht.
        exact (join_merged_head (lit " ") (text acc) (text curr) (map text rest)).
      * simpl in *. lia.
      * eapply Forall_impl; [exact Hs|]. intros l Hl. simpl in *.
        apply elem_of_cons in Hl. destruct Hl as [->|Hl]; [by left|].
        by do 2 right.
    + destruct (IH _ _ H) as (out & -> & Ht & Hn & Hs).
      exists (acc :: out). split; [reflexivity|]. split; [|split].
      * change (map text ((acc :: out) ++ [acc']))
          with (text acc :: map text (out ++ [acc'])).
        change (map text (acc :: curr :: rest))
          with (text acc :: map text (curr :: rest)).
        rewrite !join_cons; [by rewrite Ht | discriminate |].
        destruct out; discriminate.
      * simpl in *. lia.
      * constructor; [simpl; by left|].
        eapply Forall_impl; [exact Hs|]. intros l Hl. by right.
Qed.

(** X7. Whatever the predicate, a transcript that [merge] returns has
    the texts of the original, in order: joined with one space they give
    the same string. It has no more lines than the original, and every
    speaker in it is a speaker of the original. *)
Theorem merge_keeps_text (T T' : Transcript) (p : predicate) :
  merge T p = Ok T' ->
  join (lit " ") (map text (lines T')) = join (lit " ") (map text (lines T)) /\
  (length (lines T') <= length (lines T))%nat /\
  (forall l, l ∈ lines T' -> speaker l ∈ map speaker (lines T)).
Proof.
  unfold merge. destruct (lines T) as [|first rest]; [discriminate|].
  intros H. bind_inv H. destruct a as [M acc']. injection H as <-.
  destruct (merge_loop_text _ _ _ _ _ _ Ha) as (out & -> & Ht & Hn & Hs).
  fold (build out). rewrite build_snoc, lines_build.
  split; [exact Ht|]. split; [exact Hn|].
  intros l Hl. by apply (proj1 (Forall_forall _ _) Hs).
Qed.

Lemma merge_keeps_text_witness :
  exists T', merge ex_three_lines same_speaker = Ok T' /\
    join (lit " ") (map text (lines T')) = lit "hello world bye".
Proof.
  destruct (merge_total ex_three_lines same_speaker) as [T' HT'];
    [vm_compute; discriminate | apply same_speaker_total |].
  exists T'. split; [exact HT'|].
  apply (merge_keeps_text ex_three_lines T' same_speaker HT').
Defined.

(** ** merge by silence *)




(** X9. On a transcript with one line that a constructing operation
    returned, [merge_by_silence_interval] with the default interval
    raises [IndexError] (there is no silence interval to take the
    median of), while with any interval given it returns the
    transcript. On the empty transcript it raises [IndexError] either
    way. *)
Theorem merge_by_silence_interval_few_lines (T : Transcript) (ignore_speakers : bool) :
  constructed T ->
  (length (lines T) <= 1)%nat ->
  merge_by_silence_interval T None ignore_speakers = Raise IndexError /\
  forall i : timedelta,
    merge_by_silence_interval T (Some i) ignore_speakers =
    if decide (lines T = []) then Raise IndexError else Ok T.
Proof.
  intros HT Hn. rewrite (constructed_build T HT).
  destruct (lines T) as [|l [|l' rest]]; [| |simpl in Hn; lia].
  - split; [reflexivity|]. intros i. by destruct ignore_speakers.
  - split; [reflexivity|]. intros i. by destruct ignore_speakers.
Qed.

Lemma merge_by_silence_interval_few_lines_witness :
  merge_by_silence_interval (build [ex_hello]) None true = Raise IndexError.
Proof.
  apply (merge_by_silence_interval_few_lines (build [ex_hello]) true).
  - apply (constructed_merge (build [ex_hello]) (build [ex_hello]) (fun _ _ => Ok false)).
    vm_compute. reflexivity.
  - vm_compute. lia.
Defined.

(** ** merge by speaker *)

Lemma speakers_alternate_cons (a b : TranscriptLine) (ls : list TranscriptLine) :
  speakers_alternate (a :: b :: ls) <-> speaker a <> speaker b /\ speakers_alternate (b :: ls).
Proof. reflexivity. Qed.

Lemma merge_loop_same_speaker (rest : list TranscriptLine)
    (M M' : Transcript) (acc acc' : TranscriptLine) :
  merge_loop same_speaker M acc rest = Ok (M', acc') ->
  exists out,
    M' = foldl add_item M out /\
    speakers_alternate (out ++ [acc']) /\
    speaker <$> head (out ++ [acc']) = Some (speaker acc).
Proof.
  revert M acc. induction rest as [|curr rest IH]; intros M acc H; simpl in H.
  - injection H as <- <-. exists []. by repeat split.
  - unfold same_speaker at 1 in H. simpl in H.
    destruct (bool_decide (get_speaker acc = get_speaker curr)) eqn:E.
    + destruct (IH _ _ H) as (out & -> & Ha & Hh). exists out. by repeat split.
    + apply bool_decide_eq_false_1 in E.
      destruct (IH _ _ H) as (out & -> & Ha & Hh).
      exists (acc :: out). split; [reflexivity|]. split; [|reflexivity].
      destruct (out ++ [acc']) as [|b tl] eqn:Eo; [by destruct out|].
      change ((acc :: out) ++ [acc']) with (acc :: (out ++ [acc'])). rewrite Eo.
      apply speakers_alternate_cons. split; [|exact Ha].
      simpl in Hh. injection Hh as Hh. unfold get_speaker in E. congruence.
Qed.

Lemma speakers_alternate_never (rest : list TranscriptLine) (acc : TranscriptLine) (M : Transcript) :
  speakers_alternate (acc :: rest) ->
  exists M' acc',
    merge_loop same_speaker M acc rest = Ok (M', acc') /\
    add_item M' acc' = foldl add_item M (acc :: rest).
Proof.
  revert M acc. induction rest as [|curr rest IH]; intros M acc Ha; simpl.
  - by exists M, acc.
  - apply speakers_alternate_cons in Ha. destruct Ha as [Hne Ha].
    unfold same_speaker at 1. simpl. rewrite bool_decide_eq_false_2 by exact Hne.
    destruct (IH (add_item M acc) curr Ha) as (M' & acc' & H1 & H2).
    exists M', acc'. split; [exact H1 | exact H2].
Qed.

(** X10. A transcript that [merge] returns for the same-speaker
    predicate has no two neighbouring lines with the same speaker, and
    merging it again changes nothing. *)
Theorem merge_same_speaker_alternates (T T' : Transcript) :
  merge T same_speaker = Ok T' ->
  speakers_alternate (lines T') /\ merge T' same_speaker = Ok T'.
Proof.
  unfold merge at 1. destruct (lines T) as [|first rest]; [discriminate|].
  intros H. bind_inv H. destruct a as [M acc']. injection H as <-.
  destruct (merge_loop_same_speaker _ _ _ _ _ Ha) as (out & -> & Halt & _).
  fold (build out). rewrite build_snoc, lines_build. split; [exact Halt|].
  unfold merge. rewrite lines_build.
  destruct (out ++ [acc']) as [|a tl] eqn:Eo; [by destruct out|].
  destruct (speakers_alternate_never tl a Transcript_init Halt) as (M' & acc2 & H1 & H2).
  rewrite H1. simpl bind. by rewrite H2.
Qed.

Lemma merge_same_speaker_alternates_witness :
  exists T', merge ex_three_lines same_speaker = Ok T' /\ merge T' same_speaker = Ok T'.
Proof.
  destruct (merge_total ex_three_lines same_speaker) as [T' HT'];
    [vm_compute; discriminate | apply same_speaker_total |].
  exists T'. split; [exact HT'|].
  apply (merge_same_speaker_alternates ex_three_lines T' HT').
Defined.

Lemma lower_char_n (c : ascii) :
  lower_char c = "n"%char <-> c = "n"%char \/ c = "N"%char.
Proof.
  destruct c as [b0 b1 b2 b3 b4 b5 b6 b7].
  destruct b0, b1, b2, b3, b4, b5, b6, b7; vm_compute;
    (split; [intros H; first [discriminate H | auto]
            | intros [H|H]; first [discriminate H | reflexivity]]).
Qed.

Lemma lower_n (s : str) : lower s = lit "n" <-> s = lit "n" \/ s = lit "N".
Proof.
  destruct s as [|c [|d s]].
  - split; [discriminate | intros [H|H]; discriminate H].
  - change (lower [c]) with [lower_char c]. split.
    + intros [= H]. apply lower_char_n in H. destruct H as [->| ->]; auto.
    + intros [[= ->]|[= ->]]; reflexivity.
  - split; [discriminate | intros [H|H]; discriminate H].
Qed.

Lemma single_speaker (T : Transcript) (first l : TranscriptLine) :
  constructed T -> (size (speakers T) < 2)%nat ->
  first ∈ lines T -> l ∈ lines T -> speaker l = speaker first.
Proof.
  intros HT Hsize Hf Hl. rewrite (constructed_build T HT) in Hsize.
  destruct (build_inv (lines T)) as [_ _ _ Hsp]. rewrite Hsp, lines_build in Hsize.
  destruct (decide (speaker l = speaker first)) as [|Hne]; [assumption|].
  assert ({[speaker l; speaker first]} ⊆ (list_to_set (map get_speaker (lines T)) : gset str))
    as Hsub.
  { intros x Hx. apply elem_of_list_to_set, list_elem_of_fmap.
    apply elem_of_union in Hx. destruct Hx as [Hx|Hx]; apply elem_of_singleton in Hx;
      subst x; [by exists l | by exists first]. }
  apply subseteq_size in Hsub. rewrite size_union in Hsub.
  - rewrite !size_singleton in Hsub. lia.
  - intros x Hx1 Hx2. apply elem_of_singleton in Hx1, Hx2. congruence.
Qed.

(** X11. On a transcript with a single speaker that a constructing
    operation returned, [merge_by_speaker] returns the transcript itself
    when the answer to its question, stripped, is ["n"] or ["N"], and
    otherwise one line made of all the lines. With two speakers or more
    the question is not asked and the answer plays no part. *)
Theorem merge_by_speaker_single_speaker (T : Transcript) (first : TranscriptLine)
    (rest : list TranscriptLine) (answer : str) :
  constructed T ->
  lines T = first :: rest ->
  ((size (speakers T) < 2)%nat ->
     (strip answer = lit "n" \/ strip answer = lit "N" ->
        merge_by_speaker T answer = Ok T) /\
     (strip answer <> lit "n" -> strip answer <> lit "N" ->
        merge_by_speaker T answer = Ok (build [foldl line_add first rest])))
  /\ ((2 <= size (speakers T))%nat ->
        merge_by_speaker T answer = merge T same_speaker).
Proof.
  intros HT Hl. unfold merge_by_speaker. split.
  - intros Hsize. destruct (size (speakers T) <? 2)%nat eqn:E;
      [|apply Nat.ltb_ge in E; lia].
    assert (merge T same_speaker = Ok (build [foldl line_add first rest])) as Hm.
    { unfold merge. rewrite Hl.
      rewrite (merge_loop_true rest Transcript_init first); [reflexivity|].
      intros a b Hb Ha. unfold same_speaker, get_speaker.
      rewrite bool_decide_eq_true_2; [reflexivity|]. rewrite Ha. symmetry.
      apply (single_speaker T first b HT Hsize); rewrite Hl.
      - by left.
      - right. by apply list_elem_of_In. }
    split.
    + intros Hn. apply lower_n in Hn. by rewrite bool_decide_eq_true_2.
    + intros H1 H2. rewrite bool_decide_eq_false_2; [exact Hm|].
      intros Hn. apply lower_n in Hn. tauto.
  - intros Hsize. destruct (size (speakers T) <? 2)%nat eqn:E;
      [apply Nat.ltb_lt in E; lia | reflexivity].
Qed.

Lemma merge_by_speaker_single_speaker_witness :
  merge_by_speaker ex_two_lines (lit " N ") = Ok ex_two_lines /\
  merge_by_speaker ex_two_lines (lit "y") = Ok (build [line_add ex_hello ex_world]).
Proof.
  assert (constructed ex_two_lines) as HT.
  { apply (constructed_merge ex_two_lines ex_two_lines (fun _ _ => Ok false)).
    vm_compute. reflexivity. }
  assert (size (speakers ex_two_lines) < 2)%nat as Hs by (vm_compute; lia).
  split.
  - apply (proj1 (merge_by_speaker_single_speaker ex_two_lines ex_hello [ex_world]
                    (lit " N ") HT eq_refl) Hs).
    right. vm_compute. reflexivity.
  - apply (proj1 (merge_by_speaker_single_speaker ex_two_lines ex_hello [ex_world]
                    (lit "y") HT eq_refl) Hs); vm_compute; discriminate.
Defined.

(** ** Renaming speakers *)

Lemma gaps_times (ls ls' : list TranscriptLine) :
  Forall2 (fun a b => start_time a = start_time b /\ end_time a = end_time b) ls ls' ->
  gaps ls = gaps ls' /\ map get_duration ls = map get_duration ls'.
Proof.
  induction 1 as [|a b ls ls' [Hs He] HF [IH1 IH2]]; [by split|].
  split.
  - destruct HF as [|a' b' ls ls' [Hs' He'] HF]; [reflexivity|].
    change (gaps (a :: a' :: ls)) with (line_sub a' a :: gaps (a' :: ls)).
    change (gaps (b :: b' :: ls')) with (line_sub b' b :: gaps (b' :: ls')).
    rewrite IH1. unfold line_sub, get_start_time, get_end_time. congruence.
  - simpl. rewrite IH2. unfold get_duration. congruence.
Qed.

Lemma build_times (ls ls' : list TranscriptLine) :
  Forall2 (fun a b => start_time a = start_time b /\ end_time a = end_time b) ls ls' ->
  silence_intervals (build ls) = silence_intervals (build ls') /\
  total_silence (build ls) = total_silence (build ls') /\
  total_speaking_time (build ls) = total_speaking_time (build ls').
Proof.
  intros H. destruct (gaps_times _ _ H) as [Hg Hd].
  destruct (build_inv ls) as [_ Hs1 Hd1 _], (build_inv ls') as [_ Hs2 Hd2 _].
  rewrite Hs1, Hs2, Hd1, Hd2, !silence_intervals_build, !lines_build, Hg, Hd.
  by repeat split.
Qed.

(** X12. [map_speakers] returns as many lines; line i keeps its times
    and text, and has the name the mapping gives for its speaker, or its
    own speaker when the mapping has none. On a transcript that a
    constructing operation returned, the silence intervals, the total
    silence and the total speaking time are unchanged. *)
Theorem map_speakers_spec (T : Transcript) (m : gmap str str) :
  length (lines (map_speakers T m)) = length (lines T) /\
  (forall (i : nat) (l : TranscriptLine), lines T !! i = Some l ->
     lines (map_speakers T m) !! i =
     Some (mkLine (start_time l) (end_time l) (default (speaker l) (m !! speaker l)) (text l)))
  /\ (constructed T ->
        silence_intervals (map_speakers T m) = silence_intervals T /\
        total_silence (map_speakers T m) = total_silence T /\
        total_speaking_time (map_speakers T m) = total_speaking_time T).
Proof.
  rewrite map_speakers_build, lines_build. split; [apply length_map|]. split.
  - intros i l Hi. rewrite list_lookup_fmap, Hi. simpl. f_equal.
    unfold remap, get_speaker. destruct (m !! speaker l); [reflexivity | by destruct l].
  - intros HT. rewrite (constructed_build T HT) at 2 4 6. apply build_times.
    clear. induction (lines T) as [|l ls IH]; constructor; [|exact IH].
    unfold remap. by destruct (m !! get_speaker l).
Qed.

Lemma map_speakers_spec_witness :
  silence_intervals (map_speakers ex_three_lines {[lit "A" := lit "Ann"]})
  = silence_intervals ex_three_lines.
Proof.
  apply (proj2 (proj2 (map_speakers_spec ex_three_lines {[lit "A" := lit "Ann"]}))).
  apply (constructed_merge ex_three_lines ex_three_lines (fun _ _ => Ok false)).
  vm_compute. reflexivity.
Defined.

(** X13. [map_speakers] with a mapping that names no speaker of the
    transcript, the empty mapping for one, returns a transcript with the
    same lines, which is the original when a constructing operation
    returned it. *)
Theorem map_speakers_no_key (T : Transcript) (m : gmap str str) :
  (forall l, l ∈ lines T -> m !! speaker l = None) ->
  lines (map_speakers T m) = lines T /\
  (constructed T -> map_speakers T m = T).
Proof.
  intros Hm.
  assert (map (remap m) (lines T) = lines T) as E.
  { induction (lines T) as [|l ls IH]; [reflexivity|]. simpl. rewrite IH.
    - unfold remap, get_speaker. rewrite (Hm l); [reflexivity | by left].
    - intros l' Hl'. apply Hm. by right. }
  rewrite map_speakers_build, lines_build, E. split; [reflexivity|].
  intros HT. symmetry. by apply constructed_build.
Qed.

Lemma map_speakers_no_key_witness :
  lines (map_speakers ex_three_lines ∅) = lines ex_three_lines.
Proof.
  apply (map_speakers_no_key ex_three_lines ∅).
  intros l _. apply lookup_empty.
Defined.

(** X14. A transcript that [alternate_speakers] returns for a transcript
    that a constructing operation returned has the same silence
    intervals, total silence and total speaking time, and every speaker
    in it is one of the names given. *)
Theorem alternate_speakers_keeps_times (T T' : Transcript) (names : list str) :
  constructed T ->
  alternate_speakers T names = Ok T' ->
  silence_intervals T' = silence_intervals T /\
  total_silence T' = total_silence T /\
  total_speaking_time T' = total_speaking_time T /\
  (forall l, l ∈ lines T' -> speaker l ∈ names).
Proof.
  intros HT H. unfold alternate_speakers in H.
  apply alternate_loop_spec in H. destruct H as (ls & -> & Hlen & Hnth).
  fold (build ls).
  assert (Forall2 (fun a b => start_time a = start_time b /\ end_time a = end_time b)
            ls (lines T)) as HF.
  { apply Forall2_same_length_lookup_2; [exact Hlen|].
    intros i a b Ha Hb. destruct (Hnth i b Hb) as (name & _ & Hl).
    rewrite Ha in Hl. injection Hl as ->. by split. }
  destruct (build_times _ _ HF) as (H1 & H2 & H3).
  rewrite (constructed_build T HT) at 1 2 3.
  split; [exact H1|]. split; [exact H2|]. split; [exact H3|].
  rewrite lines_build. intros l Hl. apply list_elem_of_lookup in Hl. destruct Hl as [i Hi].
  destruct (lookup_lt_is_Some_2 (lines T) i) as [b Hb].
  { rewrite <- Hlen. by apply lookup_lt_Some in Hi. }
  destruct (Hnth i b Hb) as (name & Hname & Hl).
  rewrite Hi in Hl. injection Hl as ->. simpl.
  apply list_elem_of_lookup. eauto.
Qed.

Lemma alternate_speakers_keeps_times_witness :
  exists T', alternate_speakers ex_three_lines [lit "X"; lit "Y"] = Ok T' /\
             total_silence T' = total_silence ex_three_lines.
Proof.
  destruct (alternate_loop_total [lit "X"; lit "Y"] (lines ex_three_lines) Transcript_init 0)
    as [T' HT']; [discriminate|].
  exists T'. split; [exact HT'|].
  apply (alternate_speakers_keeps_times ex_three_lines T' [lit "X"; lit "Y"]); [|exact HT'].
  apply (constructed_merge ex_three_lines ex_three_lines (fun _ _ => Ok false)).
  vm_compute. reflexivity.
Defined.

(** ** What parse_line accepts *)

Lemma match_line_num_inv19 (s rest : str) :
  match_line_num s = Some rest ->
  exists c ds, s = (c :: ds) ++ nl :: rest /\
    is_digit19 c = true /\ forallb is_digit ds = true.
Proof.
  unfold match_line_num. destruct s as [|c s]; [discriminate|].
  destruct (is_digit19 c) eqn:Hc; [|discriminate].
  destruct (skip_digits_app s) as (ds & Hs & Hds).
  destruct (skip_digits s) as [|d rest']; [discriminate|].
  destruct (is_nl d) eqn:Hd; [|discriminate].
  intros [= <-]. apply bool_decide_eq_true_1 in Hd. subst d.
  exists c, ds. split; [simpl; by f_equal | by split].
Qed.

Lemma parse_time_range (st : str) (t : timedelta) :
  Forall2 (fun k c => in_class k c = true) timestamp_pattern st ->
  parse_time st = Ok t ->
  in_day t /\ t mod 1000 = 0.
Proof.
  intros Hst Hp.
  destruct (timestamp_chars st Hst) as (h1 & h2 & m1 & m2 & s1 & s2 & f1 & f2 & f3 & -> & Hd).
  repeat match goal with
  | H : Forall _ (_ :: _) |- _ => apply Forall_cons in H; destruct H as [? H]
  end.
  unfold parse_time in Hp.
  set (hour := 10 * digit_val h1 + digit_val h2) in *.
  set (minute := 10 * digit_val m1 + digit_val m2) in *.
  set (second := 10 * digit_val s1 + digit_val s2) in *.
  set (ms := 100 * digit_val f1 + 10 * digit_val f2 + digit_val f3) in *.
  destruct ((hour <=? 23) && (minute <=? 59) && (second <=? 59)) eqn:E; [|discriminate].
  injection Hp as <-.
  apply andb_true_iff in E. destruct E as [E E3].
  apply andb_true_iff in E. destruct E as [E1 E2].
  apply Z.leb_le in E1, E2, E3.
  assert (0 <= hour /\ 0 <= minute /\ 0 <= second /\ 0 <= ms <= 999) as (B1 & B2 & B3 & B4).
  { subst hour minute second ms.
    repeat match goal with
    | H : is_digit ?c = true |- _ => apply is_digit_val in H; destruct H as [? _]
    end. lia. }
  destruct (time_fields hour minute second ms) as (Ht & _); try lia.
  split; [exact Ht|]. unfold us_per_s, us_per_ms. symmetry.
  apply Z.mod_unique with (((hour * 60 + minute) * 60 + second) * 1000 + ms); lia.
Qed.

Lemma parse_line_Ok (blk : str) (l : TranscriptLine) :
  parse_line blk = Ok l <-> grammar_block blk l.
Proof.
  split.
  - unfold parse_line, match_line. intros H.
    destruct (match_line_num blk) as [body|] eqn:E0; [|discriminate].
    destruct (match_body body) as [[[[st en] sp] tx]|] eqn:E1; [|discriminate].
    bind_inv H. bind_inv H. injection H as <-.
    apply match_line_num_inv19 in E0. destruct E0 as (c & ds & -> & Hc & Hds).
    apply match_body_inv in E1. destruct E1 as (-> & Fst & Fen & Hnl & Hg).
    exists c, ds, st, en. simpl. by repeat split.
  - intros (c & ds & st & en & -> & Hc & Hds & Fst & Fen & Hst & Hen & Hnl & Hg).
    unfold parse_line, match_line.
    rewrite (match_line_num_complete c ds _ Hc Hds).
    rewrite (match_body_complete st en _ _ Fst Fen Hnl Hg), Hst, Hen.
    simpl. by destruct l.
Qed.

(** X15. [parse_line] returns a line exactly on the blocks of its
    grammar: a line number that starts with a digit from 1 to 9, a
    newline, two timestamps that [__parse_time] accepts around the arrow,
    a newline, and a last line without newline that the greedy split
    cuts into the speaker and the text. Nothing relates the two times:
    the end may come before the start. *)
Theorem parse_line_grammar (blk : str) (l : TranscriptLine) :
  parse_line blk = Ok l <-> grammar_block blk l.
Proof. apply parse_line_Ok. Qed.

Lemma parse_line_grammar_witness :
  grammar_block ex_block (mkLine 0 1000000 (lit "A: b") (lit "c")).
Proof.
  apply (proj1 (parse_line_grammar ex_block (mkLine 0 1000000 (lit "A: b") (lit "c")))).
  vm_compute. reflexivity.
Defined.

Lemma parse_line_Raise (blk : str) (e : exn) : parse_line blk = Raise e -> e = ValueError.
Proof.
  unfold parse_line. intros H.
  destruct (match_line blk) as [[[[st en] sp] tx]|] eqn:E; [|congruence].
  unfold parse_time in H.
  repeat match type of H with
  | context [match ?x with _ => _ end] => destruct x; simpl in H; try congruence
  end.
Qed.

(** X16. A line that [parse_line] returns has both times from zero to
    below one day, in whole milliseconds; its speaker and its text are
    not empty and hold no newline; and its text holds no [": "] that a
    character follows. Any other outcome of [parse_line] is
    [ValueError]. *)
Theorem parse_line_result (blk : str) :
  (forall l, parse_line blk = Ok l ->
     in_day (start_time l) /\ start_time l mod 1000 = 0 /\
     in_day (end_time l) /\ end_time l mod 1000 = 0 /\
     speaker l <> [] /\ text l <> [] /\
     existsb is_nl (speaker l) = false /\ existsb is_nl (text l) = false /\
     forall a b, text l = a ++ lit ": " ++ b -> b = [])
  /\ (forall e, parse_line blk = Raise e -> e = ValueError).
Proof.
  split.
  - intros l H. apply parse_line_Ok in H.
    destruct H as (c & ds & st & en & _ & _ & _ & Fst & Fen & Hst & Hen & Hnl & Hg).
    destruct (parse_time_range _ _ Fst Hst) as [R1 R2].
    destruct (parse_time_range _ _ Fen Hen) as [R3 R4].
    destruct (greedy_split_app _ _ _ Hg) as (_ & Hsp & Htx).
    rewrite !existsb_app in Hnl. apply orb_false_iff in Hnl. destruct Hnl as [N1 N2].
    apply orb_false_iff in N2. destruct N2 as [_ N2].
    repeat split; try assumption; try apply R1; try apply R3.
    intros a b Hab. destruct b as [|x b]; [reflexivity|]. exfalso.
    pose proof (greedy_split_longest _ _ _ Hg (speaker l ++ lit ": " ++ a) (x :: b)) as Hlen.
    rewrite !length_app in Hlen. simpl in Hlen.
    assert (length (speaker l) + S (S (length a)) <= length (speaker l))%nat; [|lia].
    apply Hlen; [|by destruct (speaker l) | discriminate].
    rewrite Hab. list_norm. reflexivity.
  - apply parse_line_Raise.
Qed.

Lemma parse_line_result_witness :
  in_day (start_time (mkLine 0 1000000 (lit "A: b") (lit "c"))).
Proof.
  apply (proj1 (parse_line_result ex_block) (mkLine 0 1000000 (lit "A: b") (lit "c"))).
  vm_compute. reflexivity.
Defined.

(** X17. A block in which [": "] does not occur does not parse:
    [parse_line] raises [ValueError]. *)
Theorem parse_line_no_separator (blk : str) :
  (forall a b, blk <> a ++ lit ": " ++ b) -> parse_line blk = Raise ValueError.
Proof.
  intros Hno. destruct (parse_line blk) as [l|e] eqn:E.
  - exfalso. apply parse_line_Ok in E.
    destruct E as (c & ds & st & en & Hblk & _).
    apply (Hno ((c :: ds) ++ nl :: st ++ lit " --> " ++ en ++ nl :: speaker l) (text l)).
    rewrite Hblk. list_norm. reflexivity.
  - f_equal. by apply (parse_line_Raise blk).
Qed.

Lemma parse_line_no_separator_witness :
  parse_line (lit "no separator here") = Raise ValueError.
Proof.
  apply parse_line_no_separator. intros a b H.
  assert (forall r : str, (exists a b, r = a ++ lit ": " ++ b) ->
            existsb (fun c => bool_decide (c = ":"%char)) r = true) as Hc.
  { intros r (a' & b' & ->). rewrite existsb_app. apply orb_true_iff. right. reflexivity. }
  specialize (Hc _ (ex_intro _ a (ex_intro _ b H))). vm_compute in Hc. discriminate Hc.
Defined.

(** ** What parse_transcript accepts *)

Lemma lstrip_spaces (ws s : str) :
  forallb isspace ws = true -> lstrip (ws ++ s) = lstrip s.
Proof.
  induction ws as [|c ws IH]; intros H; [reflexivity|].
  simpl in *. apply andb_true_iff in H. destruct H as [-> H]. by apply IH.
Qed.

Lemma lstrip_app (s w : str) :
  lstrip (s ++ w) = if forallb isspace s then lstrip w else lstrip s ++ w.
Proof.
  induction s as [|c s IH]; [reflexivity|].
  simpl. destruct (isspace c); [exact IH | reflexivity].
Qed.

Lemma forallb_rev {A : Type} (f : A -> bool) (l : list A) :
  forallb f (rev l) = forallb f l.
Proof.
  induction l as [|x l IH]; [reflexivity|].
  simpl. rewrite forallb_app, IH. simpl. rewrite andb_true_r. apply andb_comm.
Qed.

Lemma rstrip_spaces (s ws : str) :
  forallb isspace ws = true -> rstrip (s ++ ws) = rstrip s.
Proof.
  intros H. unfold rstrip. rewrite rev_app_distr, lstrip_spaces; [reflexivity|].
  by rewrite forallb_rev.
Qed.

Lemma strip_spaces (ws1 s ws2 : str) :
  forallb isspace ws1 = true -> forallb isspace ws2 = true ->
  strip (ws1 ++ s ++ ws2) = strip s.
Proof.
  intros H1 H2. unfold strip. rewrite (lstrip_spaces ws1 _ H1), lstrip_app.
  destruct (forallb isspace s) eqn:E.
  - rewrite <- (app_nil_r ws2), (lstrip_spaces ws2 [] H2).
    rewrite <- (app_nil_r s), (lstrip_spaces s [] E). reflexivity.
  - by apply rstrip_spaces.
Qed.

(** X18. [parse_transcript] ignores white space around the contents of
    the file; on contents that are white space only, the empty file for
    one, it raises [ValueError]. *)
Theorem parse_transcript_spaces (ws1 s ws2 : str) :
  forallb isspace ws1 = true -> forallb isspace ws2 = true ->
  parse_transcript (ws1 ++ s ++ ws2) = parse_transcript s /\
  parse_transcript (ws1 ++ ws2) = Raise ValueError.
Proof.
  intros H1 H2. split.
  - unfold parse_transcript. by rewrite strip_spaces.
  - unfold parse_transcript.
    rewrite <- (app_nil_l ws2), (app_assoc ws1 [] ws2), <- app_assoc.
    rewrite (strip_spaces ws1 [] ws2 H1 H2). reflexivity.
Qed.

Lemma parse_transcript_spaces_witness :
  parse_transcript ([nl] ++ ex_contents ++ lit "  ") = parse_transcript ex_contents.
Proof.
  apply (parse_transcript_spaces [nl] ex_contents (lit "  ")); reflexivity.
Defined.

Lemma parse_loop_Raise (blocks : list str) (T0 : Transcript) (e : exn) :
  parse_loop T0 blocks = Raise e ->
  e = ValueError /\ exists b, b ∈ blocks /\ parse_line b = Raise ValueError.
Proof.
  revert T0. induction blocks as [|b blocks IH]; intros T0 H; simpl in H; [discriminate|].
  destruct (parse_line b) as [l|e'] eqn:E; simpl in H.
  - destruct (IH _ H) as (-> & b' & Hb' & Hp). split; [reflexivity|].
    exists b'. split; [by right | exact Hp].
  - injection H as <-. pose proof (parse_line_Raise b e' E) as ->.
    split; [reflexivity|]. exists b. split; [by left | exact E].
Qed.

Lemma parse_transcript_blocks (s : str) :
  parse_transcript s = parse_loop Transcript_init (blocks_of s).
Proof.
  unfold parse_transcript, blocks_of.
  pose proof (split_blank_nonempty (strip s)).
  destruct (split_blank (strip s)); [congruence | reflexivity].
Qed.

(** X19. [parse_transcript] is all or nothing. It returns a transcript
    exactly when every block (those of the stripped contents between
    blank lines, the header apart) parses, and then line i of the
    transcript is the parse of block i; otherwise some block does not
    parse and the exception is [ValueError]. *)
Theorem parse_transcript_all_or_nothing (s : str) :
  (forall T, parse_transcript s = Ok T <->
     exists ls, Forall2 (fun b l => parse_line b = Ok l) (blocks_of s) ls /\ T = build ls)
  /\ (forall e, parse_transcript s = Raise e ->
        e = ValueError /\ exists b, b ∈ blocks_of s /\ parse_line b = Raise ValueError).
Proof.
  rewrite parse_transcript_blocks. split.
  - intros T. split.
    + intros H. apply parse_loop_build in H. exact H.
    + intros (ls & HF & ->). by apply parse_loop_complete.
  - intros e. apply parse_loop_Raise.
Qed.

Lemma parse_transcript_all_or_nothing_witness :
  exists ls, Forall2 (fun b l => parse_line b = Ok l) (blocks_of ex_contents) ls /\
             ex_two_lines = build ls.
Proof.
  apply (proj1 (proj1 (parse_transcript_all_or_nothing ex_contents) ex_two_lines)).
  vm_compute. reflexivity.
Defined.

Lemma parse_transcript_lines (s : str) (T : Transcript) :
  parse_transcript s = Ok T -> Forall (fun l => exists b, parse_line b = Ok l) (lines T).
Proof.
  rewrite parse_transcript_blocks. intros H. apply parse_loop_build in H.
  destruct H as (ls & HF & ->). fold (build ls). rewrite lines_build.
  induction HF as [|b l blocks ls Hb _ IH]; constructor; [by exists b | exact IH].
Qed.

(** ** consolidate *)

(** X20. The output of [consolidate] on a parsed transcript with at
    least one line can be read back: its blocks between blank lines are
    the lines' [speaker: text], in order, and the greedy split of
    [parse_line] cuts each back into the speaker and the text. *)
Theorem consolidate_read_back (s : str) (T : Transcript) :
  parse_transcript s = Ok T ->
  lines T <> [] ->
  split_blank (consolidate T)
    = map (fun l => speaker l ++ lit ": " ++ text l) (lines T) /\
  Forall (fun l => greedy_split (speaker l ++ lit ": " ++ text l) = Some (speaker l, text l))
         (lines T).
Proof.
  intros H Hne. apply parse_transcript_lines in H.
  assert (Forall (fun l => block_ok (speaker l ++ lit ": " ++ text l) = true /\
                           greedy_split (speaker l ++ lit ": " ++ text l)
                           = Some (speaker l, text l)) (lines T)) as HF.
  { eapply Forall_impl; [exact H|]. intros l (b & Hb). apply parse_line_Ok in Hb.
    destruct Hb as (c & ds & st & en & _ & _ & _ & _ & _ & _ & _ & Hnl & Hg).
    split; [|exact Hg]. apply block_ok_nl_free; [|exact Hnl].
    destruct (greedy_split_app _ _ _ Hg) as (_ & Hsp & _). by destruct (speaker l). }
  split.
  - unfold consolidate, get_speaker, get_text. apply split_blank_join.
    + by destruct (lines T).
    + apply Forall_map. eapply Forall_impl; [exact HF|]. by intros l [Hl _].
  - eapply Forall_impl; [exact HF|]. by intros l [_ Hl].
Qed.

Lemma consolidate_read_back_witness :
  split_blank (consolidate ex_two_lines) = [lit "A: hello"; lit "A: world"].
Proof.
  apply (consolidate_read_back ex_contents ex_two_lines).
  - vm_compute. reflexivity.
  - vm_compute. discriminate.
Defined.

(** ** What can be printed *)

Lemma format_time_Ok (round_ms : Z -> Z) (t : timedelta) :
  (exists s, format_time round_ms t = Ok s) <-> in_day t.
Proof.
  unfold format_time, in_day.
  destruct ((0 <=? t) && (t <? us_per_day)) eqn:E.
  - apply andb_true_iff in E. destruct E as [E1 E2].
    apply Z.leb_le in E1. apply Z.ltb_lt in E2. split; [lia | eauto].
  - split; [intros [s Hs]; discriminate|]. intros [H1 H2].
    apply andb_false_iff in E. destruct E as [E|E];
      [apply Z.leb_gt in E | apply Z.ltb_ge in E]; lia.
Qed.

Lemma line_str_Ok (round_ms : Z -> Z) (l : TranscriptLine) :
  (exists s, line_str round_ms l = Ok s) <-> in_day (start_time l) /\ in_day (end_time l).
Proof.
  rewrite <- !(format_time_Ok round_ms). unfold line_str. split.
  - intros [s H]. bind_inv H. bind_inv H. eauto.
  - intros [[s1 ->] [s2 ->]]. simpl. eauto.
Qed.

Lemma str_blocks_Ok (round_ms : Z -> Z) (ls : list TranscriptLine) (i : nat) :
  (exists bs, str_blocks round_ms i ls = Ok bs) <->
  Forall (fun l => in_day (start_time l) /\ in_day (end_time l)) ls.
Proof.
  revert i. induction ls as [|l ls IH]; intros i; simpl.
  - split; [constructor | eauto].
  - split.
    + intros [bs H]. bind_inv H. bind_inv H. constructor.
      * apply (line_str_Ok round_ms). eauto.
      * apply (IH (S i)). eauto.
    + intros H. apply Forall_cons in H. destruct H as [Hl Hls].
      apply (line_str_Ok round_ms) in Hl. destruct Hl as [s ->].
      apply (IH (S i)) in Hls. destruct Hls as [bs ->]. simpl. eauto.
Qed.

Lemma str_blocks_Raise (round_ms : Z -> Z) (ls : list TranscriptLine) (i : nat) (e : exn) :
  str_blocks round_ms i ls = Raise e -> e = ValueError.
Proof.
  revert i. induction ls as [|l ls IH]; intros i; simpl; [discriminate|].
  unfold line_str, format_time.
  destruct ((0 <=? start_time l) && (start_time l <? us_per_day)); simpl; [|congruence].
  destruct ((0 <=? end_time l) && (end_time l <? us_per_day)); simpl; [|congruence].
  destruct (str_blocks round_ms (S i) ls) eqn:E; simpl; [discriminate|].
  intros [= <-]. by apply (IH (S i)).
Qed.

(** X21. A transcript can be printed exactly when the start and the end
    of every line are from zero to below one day; otherwise [__str__]
    raises [ValueError] (the days in the text of the duration are no
    integer). *)
Theorem transcript_str_printable (round_ms : Z -> Z) (T : Transcript) :
  ((exists s, transcript_str round_ms T = Ok s) <->
   Forall (fun l => in_day (start_time l) /\ in_day (end_time l)) (lines T))
  /\ (forall e, transcript_str round_ms T = Raise e -> e = ValueError).
Proof.
  unfold transcript_str. split.
  - rewrite <- (str_blocks_Ok round_ms (lines T) 0). split.
    + intros [s H]. bind_inv H. eauto.
    + intros [bs ->]. simpl. eauto.
  - intros e H. destruct (str_blocks round_ms 0 (lines T)) eqn:E; [discriminate|].
    injection H as <-. by apply str_blocks_Raise in E.
Qed.

Lemma transcript_str_printable_witness :
  exists s, transcript_str round_half_up ex_three_lines = Ok s.
Proof.
  apply (proj1 (transcript_str_printable round_half_up ex_three_lines)).
  repeat constructor; vm_compute; congruence.
Defined.

(** X22. A parsed transcript can always be printed, however the float
    formatting rounds. *)
Theorem parsed_transcript_prints (round_ms : Z -> Z) (contents : str) (T : Transcript) :
  parse_transcript contents = Ok T -> exists s, transcript_str round_ms T = Ok s.
Proof.
  intros H. apply parse_transcript_lines in H. unfold transcript_str.
  destruct (proj2 (str_blocks_Ok round_ms (lines T) 0)) as [bs ->]; [|simpl; eauto].
  eapply Forall_impl; [exact H|]. intros l (b & Hb). apply parse_line_Ok in Hb.
  destruct Hb as (c & ds & st & en & _ & _ & _ & Fst & Fen & Hst & Hen & _).
  split; [apply (parse_time_range _ _ Fst Hst) | apply (parse_time_range _ _ Fen Hen)].
Qed.

Lemma parsed_transcript_prints_witness :
  exists s, transcript_str (fun _ => 0) ex_two_lines = Ok s.
Proof.
  apply (parsed_transcript_prints (fun _ => 0) ex_contents ex_two_lines).
  vm_compute. reflexivity.
Defined.

(** ** Averages *)

Lemma divide_and_round_near (a b : Z) :
  0 < b -> Z.abs (2 * (b * divide_and_round a b - a)) <= b.
Proof.
  intros Hb. unfold divide_and_round.
  pose proof (Z.div_mod a b ltac:(lia)) as Hdm.
  pose proof (Z.mod_pos_bound a b Hb) as Hr.
  set (q := a / b) in *. set (r := a mod b) in *.
  destruct (0 <? b) eqn:Eb; [|apply Z.ltb_ge in Eb; lia].
  destruct (b <? 2 * r) eqn:E1; simpl.
  - apply Z.ltb_lt in E1. nia.
  - apply Z.ltb_ge in E1. destruct (2 * r =? b) eqn:E2; simpl.
    + apply Z.eqb_eq in E2. destruct (q mod 2 =? 1); nia.
    + nia.
Qed.

Lemma divide_and_round_between (a b lo hi : Z) :
  0 < b -> lo * b <= a -> a <= hi * b -> lo <= divide_and_round a b <= hi.
Proof.
  intros Hb Hlo Hhi. unfold divide_and_round.
  pose proof (Z.div_mod a b ltac:(lia)) as Hdm.
  pose proof (Z.mod_pos_bound a b Hb) as Hr.
  set (q := a / b) in *. set (r := a mod b) in *.
  assert (lo <= q) by nia.
  assert (q <= hi) by nia.
  destruct (0 <? b) eqn:Eb; [|apply Z.ltb_ge in Eb; lia].
  destruct (b <? 2 * r) eqn:E1; simpl.
  - apply Z.ltb_lt in E1. nia.
  - destruct (2 * r =? b) eqn:E2; simpl; [|lia].
    apply Z.eqb_eq in E2. destruct (q mod 2 =? 1); nia.
Qed.

Lemma sum_Z_between (l : list Z) (lo hi : Z) :
  (forall g, g ∈ l -> lo <= g <= hi) ->
  lo * Z.of_nat (length l) <= sum_Z l <= hi * Z.of_nat (length l).
Proof.
  induction l as [|x l IH]; intros H; [unfold sum_Z; simpl; lia|].
  assert (lo <= x <= hi) by (apply H; by left).
  assert (lo * Z.of_nat (length l) <= sum_Z l <= hi * Z.of_nat (length l)) as IH'
    by (apply IH; intros g Hg; apply H; by right).
  unfold sum_Z in *. simpl foldr. simpl length. lia.
Qed.

(** X23. [avg_silence] on a transcript that a constructing operation
    returned: with one line it raises [ZeroDivisionError]; with no line
    it returns the zero duration (zero divided by minus one); with two
    lines or more it returns a duration within half a microsecond of the
    exact mean of the silence intervals, and between the smallest and
    the largest of them. *)
Theorem avg_silence_spec (T : Transcript) :
  constructed T ->
  (length (lines T) = 1%nat -> avg_silence T = Raise ZeroDivisionError) /\
  (lines T = [] -> avg_silence T = Ok 0) /\
  ((2 <= length (lines T))%nat ->
     exists a, avg_silence T = Ok a /\
       let n := Z.of_nat (length (silence_intervals T)) in
       Z.abs (2 * (n * a - sum_Z (silence_intervals T))) <= n /\
       forall lo hi, (forall g, g ∈ silence_intervals T -> lo <= g <= hi) -> lo <= a <= hi).
Proof.
  intros HT. rewrite (constructed_build T HT).
  destruct (build_inv (lines T)) as [Hn Hs _ _]. rewrite lines_build in *.
  unfold avg_silence, timedelta_div. rewrite lines_build.
  split; [intros ->; reflexivity|]. split; [intros ->; reflexivity|].
  intros Hlen.
  assert (Z.of_nat (length (lines T)) - 1
          = Z.of_nat (length (silence_intervals (build (lines T))))) as -> by lia.
  set (gs := silence_intervals (build (lines T))) in *.
  destruct (Z.of_nat (length gs) =? 0) eqn:E; [apply Z.eqb_eq in E; lia|].
  eexists. split; [reflexivity|]. cbv zeta. rewrite Hs. split.
  - apply divide_and_round_near. lia.
  - intros lo hi Hg. apply divide_and_round_between; [lia | |];
      apply (sum_Z_between gs lo hi Hg).
Qed.

Lemma avg_silence_spec_witness :
  avg_silence (build [ex_hello]) = Raise ZeroDivisionError.
Proof.
  apply (proj1 (avg_silence_spec (build [ex_hello])
    (constructed_merge (build [ex_hello]) (build [ex_hello]) (fun _ _ => Ok false) eq_refl))).
  reflexivity.
Defined.

(** X24. [avg_speaking_time] raises [ZeroDivisionError] on the empty
    transcript; on a transcript with a line that a constructing operation
    returned, it returns a duration within half a microsecond of the
    exact mean of the lines' durations, and between the shortest and the
    longest of them. *)
Theorem avg_speaking_time_spec (T : Transcript) :
  (lines T = [] -> avg_speaking_time T = Raise ZeroDivisionError) /\
  (constructed T -> lines T <> [] ->
     exists a, avg_speaking_time T = Ok a /\
       let n := Z.of_nat (length (lines T)) in
       Z.abs (2 * (n * a - sum_Z (map get_duration (lines T)))) <= n /\
       forall lo hi, (forall l, l ∈ lines T -> lo <= get_duration l <= hi) -> lo <= a <= hi).
Proof.
  unfold avg_speaking_time, timedelta_div. split; [intros ->; reflexivity|].
  intros HT Hne. assert (0 < Z.of_nat (length (lines T))) as Hpos
    by (destruct (lines T); [congruence | simpl; lia]).
  destruct (Z.of_nat (length (lines T)) =? 0) eqn:E; [apply Z.eqb_eq in E; lia|].
  eexists. split; [reflexivity|]. cbv zeta.
  assert (total_speaking_time T = sum_Z (map get_duration (lines T))) as ->.
  { rewrite (constructed_build T HT) at 1.
    destruct (build_inv (lines T)) as [_ _ Hd _]. by rewrite Hd, lines_build. }
  split.
  - by apply divide_and_round_near.
  - intros lo hi Hl.
    pose proof (sum_Z_between (map get_duration (lines T)) lo hi) as Hsum.
    rewrite length_map in Hsum.
    apply divide_and_round_between; [exact Hpos | |]; apply Hsum;
      intros g Hg; apply list_elem_of_fmap in Hg; destruct Hg as (l & -> & Hl');
      by apply Hl.
Qed.

Lemma avg_speaking_time_spec_witness :
  avg_speaking_time Transcript_init = Raise ZeroDivisionError.
Proof. apply (proj1 (avg_speaking_time_spec Transcript_init)). reflexivity. Defined.

(** ** MapAction *)

Lemma nullable_spec (r : regex) : nullable r = true <-> matches r [].
Proof.
  induction r as [| |f|r1 IH1 r2 IH2|r1 IH1 r2 IH2|r IH]; simpl.
  - split; [discriminate | intros H; inversion H].
  - split; [constructor | reflexivity].
  - split; [discriminate | intros H; inversion H].
  - rewrite andb_true_iff, IH1, IH2. split.
    + intros [H1 H2]. apply (matches_Seq r1 r2 [] [] H1 H2).
    + intros H. inversion H as [| |? ? s1 s2 H1 H2 E1 E2| | | |]; subst.
      apply app_eq_nil in E2. destruct E2 as [-> ->]. by split.
  - rewrite orb_true_iff, IH1, IH2. split.
    + intros [H|H]; [by apply matches_Alt_l | by apply matches_Alt_r].
    + intros H. inversion H; subst; auto.
  - split; [constructor | reflexivity].
Qed.

Lemma matches_Star_cons (r : regex) (c : ascii) (s : str) :
  matches (Star r) (c :: s) ->
  exists s1 s2, s = s1 ++ s2 /\ matches r (c :: s1) /\ matches (Star r) s2.
Proof.
  intros H. remember (Star r) as r' eqn:Er. remember (c :: s) as s' eqn:Es.
  revert s Es. induction H as [| | | | | |r0 s1 s2 H1 _ H2 IH2]; intros t Et;
    try discriminate.
  injection Er as ->. destruct s1 as [|c' s1].
  - simpl in Et. by apply IH2.
  - simpl in Et. injection Et as -> <-. by exists s1, s2.
Qed.

Lemma deriv_spec (c : ascii) (r : regex) (s : str) :
  matches (deriv c r) s <-> matches r (c :: s).
Proof.
  revert s. induction r as [| |f|r1 IH1 r2 IH2|r1 IH1 r2 IH2|r IH]; intros s; simpl.
  - split; intros H; inversion H.
  - split; intros H; inversion H.
  - destruct (f c) eqn:E; split; intros H; inversion H; subst.
    + by constructor.
    + constructor.
    + congruence.
  - assert (matches (Seq (deriv c r1) r2) s <->
            exists s1 s2, s = s1 ++ s2 /\ matches r1 (c :: s1) /\ matches r2 s2) as Hseq.
    { split.
      - intros H. inversion H as [| |? ? s1 s2 H1 H2| | | |]; subst.
        exists s1, s2. split; [reflexivity|]. split; [by apply IH1 | exact H2].
      - intros (s1 & s2 & -> & H1 & H2). constructor; [by apply IH1 | exact H2]. }
    assert (matches (Seq r1 r2) (c :: s) <->
            (exists s1 s2, s = s1 ++ s2 /\ matches r1 (c :: s1) /\ matches r2 s2)
            \/ (matches r1 [] /\ matches r2 (c :: s))) as Hcons.
    { split.
      - intros H. inversion H as [| |? ? s1 s2 H1 H2 E1 E2| | | |]; subst.
        destruct s1 as [|c' s1].
        + right. simpl in E2. subst s2. by split.
        + left. simpl in E2. injection E2 as -> <-. by exists s1, s2.
      - intros [(s1 & s2 & -> & H1 & H2)|[H1 H2]].
        + apply (matches_Seq r1 r2 (c :: s1) s2 H1 H2).
        + apply (matches_Seq r1 r2 [] (c :: s) H1 H2). }
    rewrite Hcons. destruct (nullable r1) eqn:En.
    + apply nullable_spec in En. split.
      * intros H. inversion H; subst; [left; by apply Hseq|].
        right. split; [exact En | by apply IH2].
      * intros [H|[_ H]]; [apply matches_Alt_l; by apply Hseq|].
        apply matches_Alt_r. by apply IH2.
    + rewrite Hseq. split; [by left|]. intros [H|[H _]]; [exact H|].
      apply nullable_spec in H. congruence.
  - split; intros H; inversion H; subst.
    + apply matches_Alt_l. by apply IH1.
    + apply matches_Alt_r. by apply IH2.
    + apply matches_Alt_l. by apply IH1.
    + apply matches_Alt_r. by apply IH2.
  - split.
    + intros H. inversion H as [| |? ? s1 s2 H1 H2| | | |]; subst.
      apply (matches_Star_app r (c :: s1) s2); [by apply IH | exact H2].
    + intros H. apply matches_Star_cons in H. destruct H as (s1 & s2 & -> & H1 & H2).
      constructor; [by apply IH | exact H2].
Qed.

Lemma re_match_spec (r : regex) (s : str) :
  re_match r s = true <-> exists p rest, s = p ++ rest /\ matches r p.
Proof.
  revert r. induction s as [|c s IH]; intros r; simpl.
  - rewrite orb_false_r, nullable_spec. split.
    + intros H. by exists [], [].
    + intros (p & rest & E & H). symmetry in E. apply app_eq_nil in E.
      destruct E as [-> _]. exact H.
  - rewrite orb_true_iff, nullable_spec, IH. split.
    + intros [H|(p & rest & -> & H)].
      * by exists [], (c :: s).
      * exists (c :: p), rest. split; [reflexivity | by apply deriv_spec].
    + intros (p & rest & E & H). destruct p as [|c' p].
      * by left.
      * right. simpl in E. injection E as <- ->. exists p, rest.
        split; [reflexivity | by apply deriv_spec].
Qed.

Lemma matches_Plus_Class (f : ascii -> bool) (p : str) :
  matches (Plus (Class f)) p <-> p <> [] /\ forallb f p = true.
Proof.
  assert (forall q, matches (Star (Class f)) q <-> forallb f q = true) as Hstar.
  { intros q. split.
    - intros H. remember (Star (Class f)) as r eqn:Er.
      induction H as [| | | | | |r0 s1 s2 H1 _ H2 IH2]; try discriminate; [reflexivity|].
      injection Er as ->. inversion H1; subst. simpl. rewrite IH2; [|reflexivity].
      by rewrite andb_true_r.
    - induction q as [|c q IH]; intros H; [constructor|].
      simpl in H. apply andb_true_iff in H. destruct H as [Hc Hq].
      apply (matches_Star_app (Class f) [c] q); [by constructor | by apply IH]. }
  unfold Plus. split.
  - intros H. inversion H as [| |? ? s1 s2 H1 H2| | | |]; subst.
    inversion H1; subst. split; [discriminate|]. simpl.
    apply andb_true_iff. split; [assumption | by apply Hstar].
  - intros [Hne H]. destruct p as [|c p]; [congruence|].
    simpl in H. apply andb_true_iff in H. destruct H as [Hc Hp].
    apply (matches_Seq (Class f) (Star (Class f)) [c] p); [by constructor | by apply Hstar].
Qed.

Lemma colons_zero (k : str) : colons k = 0%nat <-> forallb not_colon k = true.
Proof.
  unfold colons, not_colon. induction k as [|c k IH]; [by split|].
  rewrite filter_cons. simpl. destruct (decide (c = ":"%char)) as [->|Hne].
  - simpl. split; [lia | discriminate].
  - rewrite bool_decide_eq_false_2 by exact Hne. simpl. exact IH.
Qed.

Lemma matches_pair_pattern (p : str) :
  matches pair_pattern p <->
  exists k v, p = k ++ ":"%char :: v /\
    k <> [] /\ v <> [] /\ colons k = 0%nat /\ colons v = 0%nat.
Proof.
  unfold pair_pattern. split.
  - intros H. inversion H as [| |? ? k s2 Hk H2| | | |]; subst.
    inversion H2 as [| |? ? s3 v H3 Hv| | | |]; subst.
    inversion H3 as [|? c Hc| | | | |]; subst.
    apply bool_decide_eq_true_1 in Hc. subst c.
    apply matches_Plus_Class in Hk, Hv. destruct Hk as [Hk1 Hk2], Hv as [Hv1 Hv2].
    exists k, v. rewrite !colons_zero. by repeat split.
  - intros (k & v & -> & Hk & Hv & Ck & Cv).
    apply colons_zero in Ck, Cv.
    apply (matches_Seq _ _ k (":"%char :: v)); [by apply matches_Plus_Class|].
    apply (matches_Seq _ _ [":"%char] v); [|by apply matches_Plus_Class].
    constructor. reflexivity.
Qed.

Lemma pair_starts (p rest : str) : matches pair_pattern p -> starts_with_pair (p ++ rest).
Proof.
  intros H. apply matches_pair_pattern in H.
  destruct H as (k & v & -> & Hk & Hv & Ck & Cv).
  destruct v as [|c v]; [congruence|].
  exists k, c, (v ++ rest). split; [by rewrite <- app_assoc|].
  split; [exact Hk|]. split; [exact Ck|].
  intros ->. unfold colons in Cv. rewrite filter_cons_True in Cv by reflexivity.
  discriminate.
Qed.

Lemma pairs_star_starts (p : str) :
  matches (Star (Seq pair_pattern (Class is_comma))) p ->
  p = [] \/ forall rest, starts_with_pair (p ++ rest).
Proof.
  intros H. remember (Star (Seq pair_pattern (Class is_comma))) as r eqn:Er.
  induction H as [| | | | | |r0 s1 s2 H1 _ H2 IH2]; try discriminate; [by left|].
  injection Er as ->. right. intros rest.
  inversion H1 as [| |? ? q1 q2 Hq1 Hq2| | | |]; subst.
  rewrite <- !app_assoc. by apply pair_starts.
Qed.

Lemma re_match_map_pattern (s : str) :
  re_match map_pattern s = true <-> starts_with_pair s.
Proof.
  rewrite re_match_spec. unfold map_pattern. split.
  - intros (p & rest & -> & H).
    inversion H as [| |? ? p1 p2 H1 H2| | | |]; subst.
    apply pairs_star_starts in H1. destruct H1 as [->|H1].
    + by apply pair_starts.
    + rewrite <- app_assoc. apply H1.
  - intros (k & c & rest & -> & Hk & Ck & Hc).
    exists (k ++ [":"%char; c]), rest. split; [by rewrite <- app_assoc|].
    apply (matches_Seq _ _ [] (k ++ [":"%char; c])); [constructor|].
    apply matches_pair_pattern. exists k, [c].
    split; [reflexivity|]. split; [exact Hk|]. split; [discriminate|].
    split; [exact Ck|]. unfold colons. by rewrite filter_cons_False, filter_nil.
Qed.

Lemma split_char_nonempty (sep : ascii) (s : str) : split_char sep s <> [].
Proof.
  induction s as [|c s IH]; simpl; [discriminate|].
  destruct (bool_decide (c = sep)); [discriminate|].
  by destruct (split_char sep s).
Qed.

Lemma length_cons_head (c : ascii) (l : list str) :
  l <> [] -> length (cons_head c l) = length l.
Proof. destruct l; [congruence | reflexivity]. Qed.

Lemma split_char_length (s : str) :
  length (split_char ":" s) = S (colons s).
Proof.
  unfold colons. induction s as [|c s IH]; [reflexivity|].
  simpl split_char. rewrite filter_cons.
  destruct (decide (c = ":"%char)) as [->|Hne].
  - rewrite bool_decide_eq_true_2 by reflexivity. simpl. by rewrite IH.
  - rewrite bool_decide_eq_false_2 by exact Hne.
    rewrite length_cons_head by apply split_char_nonempty. exact IH.
Qed.

Lemma map_pairs_Raise (pieces : list str) (m : gmap str str) (e : exn) :
  map_pairs m pieces = Raise e <->
  e = ValueError /\ Exists (fun piece => colons piece <> 1%nat) pieces.
Proof.
  revert m. induction pieces as [|piece pieces IH]; intros m; simpl.
  - split; [discriminate | intros [_ H]; inversion H].
  - pose proof (split_char_length piece) as Hlen.
    destruct (split_char ":" piece) as [|key [|value [|x l]]]; simpl in Hlen.
    + lia.
    + split; [intros [= <-]; split; [reflexivity | left; lia] | intros [-> _]; reflexivity].
    + rewrite IH. split.
      * intros [-> H]. split; [reflexivity | by right].
      * intros [-> H]. split; [reflexivity|].
        apply Exists_cons in H. destruct H as [H|H]; [lia | exact H].
    + split; [intros [= <-]; split; [reflexivity | left; lia] | intros [-> _]; reflexivity].
Qed.

Lemma map_pairs_Ok (pieces : list str) (m m' : gmap str str) :
  map_pairs m pieces = Ok m' -> Forall (fun piece => colons piece = 1%nat) pieces.
Proof.
  intros H. apply Forall_forall. intros piece Hin.
  destruct (decide (colons piece = 1%nat)) as [|Hne]; [assumption|]. exfalso.
  assert (map_pairs m pieces = Raise ValueError) as E.
  { apply map_pairs_Raise. split; [reflexivity|]. apply Exists_exists. eauto. }
  congruence.
Qed.

(** X25. What [MapAction] does with its argument. It reports a usage
    error exactly when the argument does not start with a key and the
    first character of a value (one or more characters that are no
    colon, a colon, a character that is no colon): [re.match] looks at a
    prefix only. An argument that passes this test and has a piece
    between commas with no colon or with more than one leaves the action
    with the [ValueError] of the unpacking; no other exception leaves
    it. When a mapping is stored, every piece has exactly one colon. *)
Theorem MapAction_outcome (pairs : str) :
  (MapAction_call pairs = ParserError <-> ~ starts_with_pair pairs) /\
  (forall e, MapAction_call pairs = Uncaught e <->
     e = ValueError /\ starts_with_pair pairs /\
     Exists (fun piece => colons piece <> 1%nat) (split_char "," pairs)) /\
  (forall m, MapAction_call pairs = Stored m ->
     starts_with_pair pairs /\
     Forall (fun piece => colons piece = 1%nat) (split_char "," pairs)).
Proof.
  unfold MapAction_call. pose proof (re_match_map_pattern pairs) as Hre.
  destruct (re_match map_pattern pairs).
  - assert (starts_with_pair pairs) as Hs by (by apply Hre).
    destruct (map_pairs ∅ (split_char "," pairs)) as [m|e] eqn:E.
    + split; [split; [discriminate | tauto]|]. split.
      * intros e. split; [discriminate|]. intros (-> & _ & H).
        assert (map_pairs ∅ (split_char "," pairs) = Raise ValueError) as E'
          by (by apply map_pairs_Raise).
        congruence.
      * intros m' _. split; [exact Hs|]. by apply (map_pairs_Ok _ ∅ m).
    + apply map_pairs_Raise in E. destruct E as [-> E].
      split; [split; [discriminate | tauto]|]. split.
      * intros e. split; [by intros [= <-] | by intros (-> & _)].
      * discriminate.
  - assert (~ starts_with_pair pairs) as Hs.
    { intros H. apply Hre in H. discriminate. }
    split; [by split|]. split.
    + intros e. split; [discriminate | tauto].
    + discriminate.
Qed.

Lemma MapAction_outcome_witness :
  starts_with_pair (lit "a:b,c:d") /\
  MapAction_call (lit "a:b,c") = Uncaught ValueError.
Proof.
  split.
  - apply (proj2 (proj2 (MapAction_outcome (lit "a:b,c:d")))
             (<[lit "c" := lit "d"]> (<[lit "a" := lit "b"]> ∅))).
    vm_compute. reflexivity.
  - apply (proj1 (proj2 (MapAction_outcome (lit "a:b,c"))) ValueError).
    split; [reflexivity|]. split.
    + exists (lit "a"), "b"%char, (lit ",c"). repeat split; discriminate.
    + right. left. vm_compute. lia.
Defined.

Lemma split_char_free (sep : ascii) (a : str) :
  sep ∉ a ->
  split_char sep a = [a] /\
  forall rest, split_char sep (a ++ sep :: rest) = a :: split_char sep rest.
Proof.
  induction a as [|c a IH]; intros Hfree.
  - split; [reflexivity|]. intros rest. simpl.
    by rewrite bool_decide_eq_true_2.
  - apply not_elem_of_cons in Hfree. destruct Hfree as [Hc Ha].
    destruct (IH Ha) as [IH1 IH2]. simpl.
    rewrite bool_decide_eq_false_2 by congruence. split.
    + by rewrite IH1.
    + intros rest. by rewrite IH2.
Qed.

Lemma split_char_join (sep : ascii) (l : list str) :
  l <> [] -> Forall (fun a => sep ∉ a) l -> split_char sep (join [sep] l) = l.
Proof.
  intros Hne H. induction H as [|a l Ha _ IH]; [congruence|].
  destruct l as [|b l].
  - simpl. by apply split_char_free.
  - change (join [sep] (a :: b :: l)) with (a ++ sep :: join [sep] (b :: l)).
    rewrite (proj2 (split_char_free sep a Ha)). f_equal. apply IH. discriminate.
Qed.

Lemma map_pairs_text (kvs : list (str * str)) (m : gmap str str) :
  Forall (fun kv => (":"%char ∉ fst kv) /\ (":"%char ∉ snd kv)) kvs ->
  map_pairs m (map (fun kv => fst kv ++ lit ":" ++ snd kv) kvs)
  = Ok (foldl (fun acc kv => <[fst kv := snd kv]> acc) m kvs).
Proof.
  intros H. revert m. induction H as [|[k v] kvs [Hk Hv] _ IH]; intros m; [reflexivity|].
  simpl in *. change (k ++ lit ":" ++ v) with (k ++ ":"%char :: v).
  rewrite (proj2 (split_char_free ":" k Hk)), (proj1 (split_char_free ":" v Hv)).
  apply IH.
Qed.

Lemma colons_free (s : str) : ":"%char ∉ s -> colons s = 0%nat.
Proof.
  unfold colons. induction s as [|c s IH]; intros H; [reflexivity|].
  apply not_elem_of_cons in H. destruct H as [Hc Hs].
  rewrite filter_cons_False by congruence. by apply IH.
Qed.

(** X26. On the argument written from a list of keys and values, joined
    with colons and commas, where no key and no value holds a colon or a
    comma and the first key and value are not empty, [MapAction] stores
    the mapping obtained by inserting the pairs in order: a key given
    twice keeps its last value. *)
Theorem MapAction_well_formed (k v : str) (kvs : list (str * str)) :
  k <> [] -> v <> [] ->
  Forall (fun kv => (":"%char ∉ fst kv) /\ (":"%char ∉ snd kv) /\
                    (","%char ∉ fst kv) /\ (","%char ∉ snd kv)) ((k, v) :: kvs) ->
  MapAction_call (pairs_text ((k, v) :: kvs))
  = Stored (foldl (fun acc kv => <[fst kv := snd kv]> acc) ∅ ((k, v) :: kvs)).
Proof.
  intros Hk Hv HF. unfold MapAction_call.
  assert (starts_with_pair (pairs_text ((k, v) :: kvs))) as Hs.
  { apply Forall_cons in HF. destruct HF as [(Ck & Cv & _) _]. simpl in Ck, Cv.
    destruct v as [|c v]; [congruence|].
    exists k, c, (v ++ match kvs with
                       | [] => []
                       | _ => lit "," ++ pairs_text kvs
                       end).
    split.
    - unfold pairs_text. destruct kvs as [|kv kvs].
      + simpl. by rewrite app_nil_r.
      + rewrite map_cons, join_cons by discriminate. simpl fst. simpl snd.
        list_norm. reflexivity.
    - split; [exact Hk|]. split; [by apply colons_free|].
      intros ->. apply Cv. by left. }
  apply re_match_map_pattern in Hs. rewrite Hs.
  unfold pairs_text. rewrite split_char_join.
  - rewrite map_pairs_text; [reflexivity|].
    eapply Forall_impl; [exact HF|]. by intros kv (H1 & H2 & _).
  - discriminate.
  - apply Forall_map. eapply Forall_impl; [exact HF|].
    intros kv (_ & _ & H3 & H4). simpl. intros Hin.
    apply elem_of_app in Hin. destruct Hin as [Hin|Hin]; [by apply H3|].
    apply elem_of_cons in Hin. destruct Hin as [Hin|Hin]; [discriminate | by apply H4].
Qed.

Lemma MapAction_well_formed_witness :
  MapAction_call (lit "a:b,a:c")
  = Stored (<[lit "a" := lit "c"]> (<[lit "a" := lit "b"]> ∅)).
Proof.
  apply (MapAction_well_formed (lit "a") (lit "b") [(lit "a", lit "c")]);
    [discriminate | discriminate |].
  repeat constructor; simpl; intros H;
    repeat (apply elem_of_cons in H; destruct H as [H|H]; [discriminate H|]);
    by apply elem_of_nil in H.
Defined.
